(** * ceph-read-bench: the sampler, the dispatcher and the aggregator

    A shallow embedding of [ceph-read-bench.py] and the properties of its
    three stages: [prepare_objs] (the object sampler), [bench_test] with
    [obj_aio_read] and its completion callback (the dispatcher and the
    table of result slots) and [collect_and_print_statistics] (the
    aggregator).

    Conventions of the embedding.
    - Python [int] is [Z]; positions of a list are [nat], and a subscript
      computed by the program goes through [getitem], which has Python's
      semantics (negative subscripts count from the end, [IndexError]
      outside).
    - Python [float] (time stamps, probabilities, bandwidths) is an exact
      rational [Q]: rounding of the float operations is not modelled.
    - An exception is a value [Raise e] of [result]; code that mutates
      [read_res] before it raises returns the mutated store next to the
      outcome.
    - [random.shuffle] draws from an explicit generator state. *)

From Stdlib Require Import ZArith QArith Qround Lqa String.
From stdpp Require Import base list gmap strings.
From Equations Require Import Equations.

Close Scope Q_scope.
Close Scope Z_scope.

(** ** Exceptions *)

Inductive pyerr : Set :=
| ZeroDivisionError
| IndexError
| TypeError
| ValueError
| OverflowError.

Inductive result (A : Type) : Type :=
| Ok (a : A)
| Raise (e : pyerr).
Arguments Ok {A} a.
Arguments Raise {A} e.

#[export] Instance result_ret : MRet result := fun A a => Ok a.
#[export] Instance result_bind : MBind result := fun A B f m =>
  match m with
  | Ok a => f a
  | Raise e => Raise e
  end.

(** ** Python subscripts *)

Section Subscript.
Context {A : Type}.

(** [l[k]] as an expression. *)
Definition getitem (l : list A) (k : Z) : result A :=
  let n := Z.of_nat (length l) in
  let k' := (if k <? 0 then k + n else k)%Z in
  if ((0 <=? k') && (k' <? n))%Z then
    match l !! Z.to_nat k' with
    | Some a => Ok a
    | None => Raise IndexError
    end
  else Raise IndexError.

(** [l[k] = f(l[k])], the shape of an augmented assignment. *)
Definition alteritem (f : A -> A) (l : list A) (k : Z) : result (list A) :=
  let n := Z.of_nat (length l) in
  let k' := (if k <? 0 then k + n else k)%Z in
  if ((0 <=? k') && (k' <? n))%Z then
    match l !! Z.to_nat k' with
    | Some a => Ok (<[Z.to_nat k' := f a]> l)
    | None => Raise IndexError
    end
  else Raise IndexError.
End Subscript.

(** ** [random.shuffle]

    The generator is the stream of its future raw draws; [randbelow n]
    consumes one draw and returns a number below [n].  [shuffle] is the
    loop of CPython's [Random.shuffle]:
    [for i in reversed(range(1, len(x))): j = randbelow(i + 1);
     x[i], x[j] = x[j], x[i]]. *)

Definition rng : Type := nat -> nat.

Definition randbelow (n : nat) (g : rng) : nat * rng :=
  (g 0 mod n, fun k => g (S k)).

Section Shuffle.
Context {A : Type}.

Definition swap (i j : nat) (x : list A) : result (list A) :=
  match x !! j, x !! i with
  | Some xj, Some xi => Ok (<[j := xi]> (<[i := xj]> x))
  | _, _ => Raise IndexError
  end.

(** [shuffle_from n x g] runs the loop for [i = n, n-1, ..., 1]. *)
Fixpoint shuffle_from (n : nat) (x : list A) (g : rng)
  : result (list A * rng) :=
  match n with
  | 0 => Ok (x, g)
  | S n' =>
      let '(j, g') := randbelow (S n) g in
      x' ← swap n j x;
      shuffle_from n' x' g'
  end.

Definition shuffle (x : list A) (g : rng) : result (list A * rng) :=
  shuffle_from (length x - 1) x g.
End Shuffle.

(** ** The data of the sampler *)

(** An entry of [ioctx.list_objects()]: [obj.key] and [obj.stat()[0]]. *)
Record rados_obj : Set := { obj_key : string; obj_size : Z }.

(** The [key] of a request is the integer [0] of line 34 or a key of the
    listing. *)
Inductive pykey : Set :=
| KInt (z : Z)
| KStr (s : string).

(** [dict(key=..., len=...)]. *)
Record read_req : Set := { req_key : pykey; req_len : Z }.

Definition req_of (obj : rados_obj) : read_req :=
  {| req_key := KStr (obj_key obj); req_len := obj_size obj |}.

(** ** [prepare_objs], uniform branch (lines 43-52) *)

(** The [for] loop of lines 43-47: [inl objs] is the [return objs] of line
    47, [inr (objs, count)] is the loop running to its end. *)
Fixpoint uniform_take (reads_num : Z) (cluster_objects : list rados_obj)
    (objs : list read_req) (count : Z)
  : list read_req + list read_req * Z :=
  match cluster_objects with
  | [] => inr (objs, count)
  | obj :: rest =>
      let objs := objs ++ [req_of obj] in
      let count := (count + 1)%Z in
      if (count =? reads_num)%Z then inl objs
      else uniform_take reads_num rest objs count
  end.

(** The [while] loop of lines 49-52. *)
Equations? uniform_cycle (reads_num obj_num : Z) (objs : list read_req)
    (count : Z) : result (list read_req)
  by wf (Z.to_nat (reads_num - count)) lt :=
  uniform_cycle reads_num obj_num objs count
    with Z_lt_dec count reads_num => {
    | right _ := Ok objs
    | left _ with Z.eq_dec obj_num 0%Z => {
      | left _ := Raise ZeroDivisionError
      | right _ with getitem objs (count mod obj_num)%Z => {
        | Raise e := Raise e
        | Ok o :=
            uniform_cycle reads_num obj_num
              (objs ++ [ {| req_key := req_key o; req_len := req_len o |} ])
              (count + 1)%Z } } }.
Proof. lia. Qed.


(** ** [prepare_objs], Zipf branch (lines 22-40) *)

(** An entry of [objs_p] after line 23: a finite value, [nan] or an
    infinity.  An infinity arises only from the division of line 23,
    which numpy does not trap; [nan] arises from it too, or is a weight
    that is [nan] already. *)
Inductive npfloat : Set :=
| Fin (q : Q)
| NaN
| Inf.

Definition np_div (p s : Q) : npfloat :=
  if Qeq_bool s 0 then (if Qeq_bool p 0 then NaN else Inf) else Fin (p / s).

Definition np_mul_int (p : npfloat) (n : Z) : npfloat :=
  match p with
  | Fin q => Fin (q * inject_Z n)
  | NaN => NaN
  | Inf => if (n =? 0)%Z then NaN else Inf
  end.

(** [int(x)] on a rational: truncation towards zero. *)
Definition py_int (x : Q) : Z :=
  if Qle_bool 0 x then Qfloor x else Qceiling x.

Definition np_int (p : npfloat) : result Z :=
  match p with
  | Fin q => Ok (py_int q)
  | NaN => Raise ValueError
  | Inf => Raise OverflowError
  end.

(** The builtin [sum]. *)
Definition py_sum (l : list Q) : Q := fold_left Qplus l 0%Q.

(** [x + y] and [x / y] on numpy floats that are finite or [nan], and
    [sum] over them: a [nan] operand gives [nan]. *)
Definition np_add (x y : option Q) : option Q :=
  match x, y with
  | Some a, Some b => Some (a + b)%Q
  | _, _ => None
  end.

Definition np_sum (l : list (option Q)) : option Q :=
  fold_left np_add l (Some 0%Q).

Definition np_quot (p s : option Q) : npfloat :=
  match p, s with
  | Some a, Some b => np_div a b
  | _, _ => NaN
  end.

(** The loop of lines 26-29. *)
Fixpoint zipf_alloc (reads_num : Z) (objs_p : list npfloat)
    (objs_c : list Z) (count : Z) : result (list Z * Z) :=
  match objs_p with
  | [] => Ok (objs_c, count)
  | p :: rest =>
      c ← (if (count <? reads_num)%Z
           then i ← np_int (np_mul_int p reads_num); Ok (i + 1)%Z
           else Ok 0%Z);
      zipf_alloc reads_num rest (objs_c ++ [c]) (count + c)%Z
  end.

(** The body of the loop of lines 36-40 for one [j]; the state is
    [(key, length, objs)]. *)
Definition zipf_emit (obj : rados_obj) (st : pykey * Z * list read_req)
    (j : nat) : pykey * Z * list read_req :=
  let '(key, length, objs) := st in
  let '(key, length) :=
    if Nat.eqb j 0 then (KStr (obj_key obj), obj_size obj)
    else (key, length) in
  (key, length, objs ++ [ {| req_key := key; req_len := length |} ]).

(** The loop of lines 33-40; [i] is the position [enumerate] has reached. *)
Fixpoint zipf_expand (objs_c : list Z) (i : nat)
    (cluster_objects : list rados_obj) (objs : list read_req)
  : result (list read_req) :=
  match cluster_objects with
  | [] => Ok objs
  | obj :: rest =>
      c ← getitem objs_c (Z.of_nat i);
      let '(_, _, objs) :=
        fold_left (zipf_emit obj) (seq 0 (Z.to_nat c)) (KInt 0, 0%Z, objs) in
      zipf_expand objs_c (S i) rest objs
  end.

Section Sampler.
(** [scipy.stats.zipf.pmf]: the library is not part of the program and
    is a parameter of the embedding.  It returns a numpy float that is a
    weight or [nan] (which scipy returns where the distribution is not
    defined, that is for a parameter not above 1); [None] is [nan]. *)
Variable zipf_pmf : Z -> Q -> option Q.

(** Lines 22-23.  On an empty listing line 23 divides a [list] by the
    integer [0] that [sum] returns, a [TypeError]; otherwise the list
    holds numpy floats and the division is numpy's. *)
Definition zipf_probabilities (cluster_objects : list rados_obj)
    (zipf_parm : Q) : result (list npfloat) :=
  let objs_p :=
    map (fun i => zipf_pmf (Z.of_nat i) zipf_parm)
        (seq 1 (length cluster_objects)) in
  match objs_p with
  | [] => Raise TypeError
  | _ => Ok (map (fun p => np_quot p (np_sum objs_p)) objs_p)
  end.

(** [ioctx.list_objects()] is the argument [cluster_objects]; the
    generator of [random] is threaded through. *)
Definition prepare_objs (cluster_objects : list rados_obj)
    (reads_num : Z) (use_zipf : bool) (zipf_parm : Q) (g : rng)
  : result (list read_req * rng) :=
  if use_zipf then
    objs_p ← zipf_probabilities cluster_objects zipf_parm;
    '(objs_c, count) ← zipf_alloc reads_num objs_p [] 0%Z;
    '(objs_c, g) ← shuffle objs_c g;
    objs ← zipf_expand objs_c 0 cluster_objects [];
    shuffle objs g
  else
    match uniform_take reads_num cluster_objects [] 0%Z with
    | inl objs => Ok (objs, g)
    | inr (objs, count) =>
        objs ← uniform_cycle reads_num count objs count;
        shuffle objs g
    end.
End Sampler.

(** ** The result slots and the two halves of a read (lines 57-66) *)

(** [dict(start=0.0, end=0.0, len=0, finish=False)]. *)
Record slot : Set :=
  { s_start : Q; s_end : Q; s_len : Z; s_finish : bool }.

Definition default_slot : slot :=
  {| s_start := 0; s_end := 0; s_len := 0; s_finish := false |}.

Definition set_start (t : Q) (r : slot) : slot :=
  {| s_start := t; s_end := s_end r; s_len := s_len r;
     s_finish := s_finish r |}.
Definition set_end (t : Q) (r : slot) : slot :=
  {| s_start := s_start r; s_end := t; s_len := s_len r;
     s_finish := s_finish r |}.
Definition set_len (n : Z) (r : slot) : slot :=
  {| s_start := s_start r; s_end := s_end r; s_len := n;
     s_finish := s_finish r |}.
Definition set_finish (b : bool) (r : slot) : slot :=
  {| s_start := s_start r; s_end := s_end r; s_len := s_len r;
     s_finish := b |}.

(** [read_res[tid][field] = v]; [tid] comes from [range] and is a
    position. *)
Definition update_slot (f : slot -> slot) (tid : nat) (read_res : list slot)
  : result (list slot) :=
  match read_res !! tid with
  | Some r => Ok (<[tid := f r]> read_res)
  | None => Raise IndexError
  end.

(** What [ioctx.aio_read(key, length, 0, callback)] hands to librados: the
    read in flight, whose callback belongs to slot [a_tid]. *)
Record aio : Set :=
  { a_tid : nat; a_key : pykey; a_len : Z; a_offset : Z }.

(** Lines 64-66, run at time [now] by a thread of the pool. *)
Definition obj_aio_read (tid : nat) (read_res : list slot) (obj : read_req)
    (now : Q) : result (list slot * aio) :=
  read_res ← update_slot (set_start now) tid read_res;
  Ok (read_res,
      {| a_tid := tid; a_key := req_key obj; a_len := req_len obj;
         a_offset := 0 |}).

(** Lines 59-62, run at time [now]; [data] is the second argument of the
    callback, [None] being Python's [None].  The store is returned as the
    callback leaves it, also when it raises. *)
Definition aio_read_complete (tid : nat) (now : Q)
    (data : option (list Byte.byte)) (read_res : list slot)
  : list slot * result unit :=
  match update_slot (set_end now) tid read_res with
  | Raise e => (read_res, Raise e)
  | Ok res1 =>
      match data with
      | None => (res1, Raise TypeError)
      | Some bytes =>
          match update_slot (set_len (Z.of_nat (length bytes))) tid res1 with
          | Raise e => (res1, Raise e)
          | Ok res2 =>
              match update_slot (set_finish true) tid res2 with
              | Raise e => (res2, Raise e)
              | Ok res3 => (res3, Ok tt)
              end
          end
      end
  end.

(** ** [collect_and_print_statistics] (lines 73-113) *)

Definition Qlt_bool (x y : Q) : bool := negb (Qle_bool y x).

(** The locals of lines 90-93. *)
Record collected : Set :=
  { base_t : Q; end_ : list Q; bw_mbs : list Q; lat : list Q }.

Definition collected_init : collected :=
  {| base_t := 0; end_ := []; bw_mbs := []; lat := [] |}.

(** [x / y] with a float divisor. *)
Definition py_div (x y : Q) : result Q :=
  if Qeq_bool y 0 then Raise ZeroDivisionError else Ok (x / y)%Q.

(** The body of the loop of lines 95-101. *)
Definition collect_one (c : collected) (r : slot) : result collected :=
  if negb (s_finish r) then Ok c
  else
    let base_t' :=
      if Qeq_bool (base_t c) 0 || Qlt_bool (s_start r) (base_t c)
      then s_start r else base_t c in
    let end' := end_ c ++ [s_end r] in
    bw ← py_div (inject_Z (s_len r)) (s_end r - s_start r)%Q;
    Ok {| base_t := base_t';
          end_ := end';
          bw_mbs := bw_mbs c ++ [(bw / inject_Z (1000 * 1000))%Q];
          lat := lat c ++ [(s_end r - s_start r)%Q] |}.

Fixpoint collect_loop (res : list slot) (c : collected) : result collected :=
  match res with
  | [] => Ok c
  | r :: rest => c' ← collect_one c r; collect_loop rest c'
  end.

(** The builtins [min] and [max] on a list: the first of the smallest
    (largest) elements, [ValueError] on an empty list. *)
Section MinMax.
Context {A : Type} (ltb : A -> A -> bool).

Definition py_min (l : list A) : result A :=
  match l with
  | [] => Raise ValueError
  | x :: l' => Ok (fold_left (fun m y => if ltb y m then y else m) l' x)
  end.

Definition py_max (l : list A) : result A :=
  match l with
  | [] => Raise ValueError
  | x :: l' => Ok (fold_left (fun m y => if ltb m y then y else m) l' x)
  end.
End MinMax.

(** The loop of lines 110-111. *)
Fixpoint count_iops (base : Q) (ends : list Q) (iops : list Z)
  : result (list Z) :=
  match ends with
  | [] => Ok iops
  | e :: rest =>
      iops' ← alteritem Z.succ iops (py_int (e - base)%Q);
      count_iops base rest iops'
  end.

(** Lines 90-111: the three lists handed to [print_statistics]. *)
Definition collect_statistics (res : list slot)
  : result (list Q * list Z * list Q) :=
  c ← collect_loop res collected_init;
  if Nat.eqb (length (bw_mbs c)) 0 then
    Ok (bw_mbs c ++ [0%Q], [0%Z], lat c ++ [0%Q])
  else
    m ← py_max Qlt_bool (end_ c);
    let total_lat := (py_int (m - base_t c)%Q + 1)%Z in
    iops ← count_iops (base_t c) (end_ c) (replicate (Z.to_nat total_lat) 0%Z);
    Ok (bw_mbs c, iops, lat c).

(** The nine numbers [print_statistics] formats. *)
Record summary : Set :=
  { min_bw : Q; max_bw : Q; avg_bw : Q;
    min_iops : Z; max_iops : Z; avg_iops : Q;
    min_lat : Q; max_lat : Q; avg_lat : Q }.

Definition len_Q {A} (l : list A) : Q := inject_Z (Z.of_nat (length l)).

Definition print_statistics (bw_mbs : list Q) (iops : list Z) (lat : list Q)
  : result summary :=
  min_bw ← py_min Qlt_bool bw_mbs;
  max_bw ← py_max Qlt_bool bw_mbs;
  avg_bw ← py_div (py_sum bw_mbs) (len_Q bw_mbs);
  min_iops ← py_min Z.ltb iops;
  max_iops ← py_max Z.ltb iops;
  avg_iops ← py_div (inject_Z (fold_left Z.add iops 0%Z)) (len_Q iops);
  min_lat ← py_min Qlt_bool lat;
  max_lat ← py_max Qlt_bool lat;
  avg_lat ← py_div (py_sum lat) (len_Q lat);
  Ok {| min_bw := min_bw; max_bw := max_bw; avg_bw := avg_bw;
        min_iops := min_iops; max_iops := max_iops; avg_iops := avg_iops;
        min_lat := min_lat; max_lat := max_lat; avg_lat := avg_lat |}.

Definition collect_and_print_statistics (res : list slot) : result summary :=
  '(bw_mbs, iops, lat) ← collect_statistics res;
  print_statistics bw_mbs iops lat.

(** ** [bench_test] (lines 116-133)

    The run is concurrent: the main thread submits tasks (line 128), the
    threads of the pool pick them up and run [obj_aio_read], and librados
    runs a callback when a read ends.  A run is a sequence of such events;
    [bench_step] says what each of them does to the state, [None] when
    the event cannot happen in that state and [Some (Raise e)] when it
    raises.  Lines 64-65 are one event: between the stamp and the call no
    other thread touches slot [tid]. *)

Inductive event : Set :=
| Submit
    (** the main thread runs line 128 for the next [i] *)
| Take
    (** an idle thread of the pool takes the oldest queued task *)
| Issue (k : nat) (now : Q)
    (** the [k]-th running task executes lines 64-66 and its thread is
        idle again *)
| Complete (k : nat) (now : Q) (data : option (list Byte.byte)).
    (** librados ends the [k]-th read in flight and runs its callback *)

Record bench_state : Set :=
  { b_next : nat;
    b_queue : list (nat * read_req);
    b_running : list (nat * read_req);
    b_inflight : list aio;
    b_read_res : list slot }.

(** Lines 121-123, and the pool of line 126 before any submission. *)
Definition bench_init (reads_num : Z) : bench_state :=
  {| b_next := 0; b_queue := []; b_running := []; b_inflight := [];
     b_read_res := replicate (Z.to_nat reads_num) default_slot |}.

Section Dispatcher.
Variables (threads_num reads_num : Z) (objs : list read_req).

Definition bench_step (s : bench_state) (e : event)
  : option (result bench_state) :=
  match e with
  | Submit =>
      if Nat.ltb (b_next s) (Z.to_nat reads_num) then
        Some (obj ← getitem objs (Z.of_nat (b_next s));
              Ok {| b_next := S (b_next s);
                    b_queue := b_queue s ++ [(b_next s, obj)];
                    b_running := b_running s;
                    b_inflight := b_inflight s;
                    b_read_res := b_read_res s |})
      else None
  | Take =>
      match b_queue s with
      | task :: queue =>
          if (Z.of_nat (length (b_running s)) <? threads_num)%Z then
            Some (Ok {| b_next := b_next s;
                        b_queue := queue;
                        b_running := b_running s ++ [task];
                        b_inflight := b_inflight s;
                        b_read_res := b_read_res s |})
          else None
      | [] => None
      end
  | Issue k now =>
      match b_running s !! k with
      | Some (tid, obj) =>
          Some ('(read_res, completion) ←
                  obj_aio_read tid (b_read_res s) obj now;
                Ok {| b_next := b_next s;
                      b_queue := b_queue s;
                      b_running := delete k (b_running s);
                      b_inflight := b_inflight s ++ [completion];
                      b_read_res := read_res |})
      | None => None
      end
  | Complete k now data =>
      match b_inflight s !! k with
      | Some completion =>
          let '(read_res, _) :=
            aio_read_complete (a_tid completion) now data (b_read_res s) in
          Some (Ok {| b_next := b_next s;
                      b_queue := b_queue s;
                      b_running := b_running s;
                      b_inflight := delete k (b_inflight s);
                      b_read_res := read_res |})
      | None => None
      end
  end.

Fixpoint bench_run (schedule : list event) (s : bench_state)
  : option (result bench_state) :=
  match schedule with
  | [] => Some (Ok s)
  | e :: rest =>
      match bench_step s e with
      | Some (Ok s') => bench_run rest s'
      | other => other
      end
  end.

(** The end of [wait_finish]: everything was submitted, run and
    acknowledged. *)
Definition bench_finished (s : bench_state) : bool :=
  Nat.eqb (b_next s) (Z.to_nat reads_num)
  && Nat.eqb (length (b_queue s)) 0
  && Nat.eqb (length (b_running s)) 0
  && Nat.eqb (length (b_inflight s)) 0.
End Dispatcher.

(** The whole of [bench_test] along one schedule: [None] when the schedule
    is not a complete run.  [ThreadPoolExecutor] refuses a width below
    one. *)
Definition bench_test (zipf_pmf : Z -> Q -> option Q)
    (cluster_objects : list rados_obj) (threads_num reads_num : Z)
    (use_zipf : bool) (zipf_parm : Q) (g : rng) (schedule : list event)
  : option (result summary) :=
  match prepare_objs zipf_pmf cluster_objects reads_num use_zipf zipf_parm g
  with
  | Raise e => Some (Raise e)
  | Ok (objs, _) =>
      if (threads_num <=? 0)%Z then Some (Raise ValueError)
      else
        match bench_run threads_num reads_num objs schedule
                (bench_init reads_num) with
        | None => None
        | Some (Raise e) => Some (Raise e)
        | Some (Ok s) =>
            if bench_finished reads_num s
            then Some (collect_and_print_statistics (b_read_res s))
            else None
        end
  end.


(** * Vocabulary of the statements *)

Definition read_req_eq_dec : forall x y : read_req, {x = y} + {x <> y}.
Proof. repeat decide equality. Defined.

(** [wraps base l]: position [i] of [l] holds entry [i mod M] of [base],
    [M] being the length of [base]. *)
Definition wraps {A} (base l : list A) : Prop :=
  forall i, i < length l -> l !! i = base !! (i mod length base).

(** Sums, as the mathematics writes them. *)
Fixpoint Qsum (l : list Q) : Q :=
  match l with
  | [] => 0%Q
  | x :: l => (x + Qsum l)%Q
  end.

Fixpoint Zsum (l : list Z) : Z :=
  match l with
  | [] => 0%Z
  | x :: l => (x + Zsum l)%Z
  end.

(** What the loop of lines 33-40 appends: [c] copies of the request of
    each object, [c] being its entry of [objs_c]. *)
Definition zipf_expansion (objs_c : list Z) (cluster_objects : list rados_obj)
  : list read_req :=
  concat (zip_with (fun c obj => replicate (Z.to_nat c) (req_of obj))
                   objs_c cluster_objects).

(** The slots the aggregator looks at, and the two figures of lines
    100-101 for one of them. *)
Definition completed (res : list slot) : list slot :=
  filter (fun r => s_finish r = true) res.

Definition duration (r : slot) : Q := (s_end r - s_start r)%Q.

Definition bandwidth (r : slot) : Q :=
  (inject_Z (s_len r) / duration r / inject_Z (1000 * 1000))%Q.

(** [b] is the smallest start, [m] the largest end, of the slots of [l]. *)
Definition is_min_start (b : Q) (l : list slot) : Prop :=
  (exists r, r ∈ l /\ b = s_start r)
  /\ forall r, r ∈ l -> (b <= s_start r)%Q.

Definition is_max_end (m : Q) (l : list slot) : Prop :=
  (exists r, r ∈ l /\ m = s_end r)
  /\ forall r, r ∈ l -> (s_end r <= m)%Q.

(** The slots of [l] whose end falls in the whole second [k] after
    [base]. *)
Definition in_bucket (base : Q) (k : nat) (l : list slot) : list slot :=
  filter (fun r => Qfloor (s_end r - base) = Z.of_nat k) l.

(** How many of [ends] the loop of lines 110-111 counts at subscript
    [k]. *)
Definition hits (base : Q) (k : nat) (ends : list Q) : Z :=
  Z.of_nat (length (filter (fun e => py_int (e - base) = Z.of_nat k) ends)).

(** [base_t] after the completed slots [seen]: the sentinel [0] of line 92
    before the first of them, their smallest start afterwards. *)
Definition base_invariant (b : Q) (seen : list slot) : Prop :=
  seen = [] /\ b = 0%Q \/ ~ (b == 0)%Q /\ is_min_start b seen.

Definition zero_summary : summary :=
  {| min_bw := 0; max_bw := 0; avg_bw := 0;
     min_iops := 0; max_iops := 0; avg_iops := 0;
     min_lat := 0; max_lat := 0; avg_lat := 0 |}.

(** A queued or running task of slot [tid] carries request [tid]; so does
    a read in flight whose callback belongs to slot [tid]. *)
Definition task_ok (objs : list read_req) (s : bench_state)
    (task : nat * read_req) : Prop :=
  task.1 < b_next s /\ objs !! task.1 = Some task.2.

Definition aio_ok (objs : list read_req) (s : bench_state) (a : aio) : Prop :=
  a_tid a < b_next s
  /\ exists obj, objs !! a_tid a = Some obj
                 /\ a_key a = req_key obj /\ a_len a = req_len obj
                 /\ a_offset a = 0%Z.

(** What every state of a run satisfies. *)
Record bench_invariant (threads_num reads_num : Z) (objs : list read_req)
    (s : bench_state) : Prop :=
  { inv_slots : length (b_read_res s) = Z.to_nat reads_num;
    inv_next : b_next s <= Z.to_nat reads_num;
    inv_queue : Forall (task_ok objs s) (b_queue s);
    inv_running : Forall (task_ok objs s) (b_running s);
    inv_inflight : Forall (aio_ok objs s) (b_inflight s);
    inv_count :
      length (b_queue s) + length (b_running s) + length (b_inflight s)
      <= b_next s;
    inv_width : (Z.of_nat (length (b_running s)) <= threads_num)%Z }.

(** [e] writes slot [j] on behalf of request [j] of [objs]: it stamps its
    start (line 64) or it is the callback of its read (lines 60-62). *)
Definition writes_for (objs : list read_req) (s : bench_state) (e : event)
    (j : nat) : Prop :=
  exists obj,
    objs !! j = Some obj
    /\ ((exists k now, e = Issue k now /\ b_running s !! k = Some (j, obj))
        \/ (exists k now data a,
              e = Complete k now data /\ b_inflight s !! k = Some a
              /\ a_tid a = j /\ a_key a = req_key obj
              /\ a_len a = req_len obj)).

(** * Concrete inputs *)

Definition ex_listing : list rados_obj :=
  [ {| obj_key := "obj_a"; obj_size := 10 |};
    {| obj_key := "obj_b"; obj_size := 20 |};
    {| obj_key := "obj_c"; obj_size := 30 |} ].

Definition two_objects : list rados_obj :=
  [ {| obj_key := "obj_a"; obj_size := 10 |};
    {| obj_key := "obj_b"; obj_size := 20 |} ].

(** A pmf with the domain of scipy's: [nan] for a parameter not above 1,
    and above 1 the weights [1 / i^2] (those of parameter 2, which line 23
    normalises). *)
Definition ex_pmf (i : Z) (a : Q) : option Q :=
  if Qle_bool a 1 then None else Some (1 # Z.to_pos (i * i))%Q.

Definition ex_rng : rng := fun k => 7 * k + 3.

Definition two_requests : list read_req := map req_of two_objects.

(** Both reads are issued by the one thread of the pool before either
    ends. *)
Definition eager_schedule : list event :=
  [Submit; Submit; Take; Issue 0 1%Q; Take; Issue 0 2%Q].

(** One slot whose read was issued at second 3. *)
Definition stamped_slots : list slot := [set_start 3 default_slot].

(** One read that starts at second 1 and ends at second 3.5. *)
Definition one_long_read : list slot :=
  [ {| s_start := 1; s_end := 7 # 2; s_len := 1000000; s_finish := true |} ].

(** Two reads, the first of which starts at the epoch. *)
Definition epoch_start_reads : list slot :=
  [ {| s_start := 0; s_end := 1; s_len := 1; s_finish := true |};
    {| s_start := 5; s_end := 6; s_len := 1; s_finish := true |} ].

(** Two slots of which none completed, and two that did. *)
Definition idle_slots : list slot :=
  [default_slot; set_start 3 default_slot].

Definition two_reads : list slot :=
  [ {| s_start := 1; s_end := 3 # 2; s_len := 4096; s_finish := true |};
    default_slot;
    {| s_start := 2; s_end := 7 # 2; s_len := 8192; s_finish := true |} ].

(** The length of what the sampler returned. *)
Definition sampled_length (r : result (list read_req * rng)) : option nat :=
  match r with
  | Ok (objs, _) => Some (length objs)
  | Raise _ => None
  end.


(** * The rest of the program *)

(** ** [parse_args] and [main] (lines 135-224) *)

(** The namespace [parser.parse_args()] returns. *)
Record args : Set :=
  { arg_conf : string;
    arg_keyring : string;
    arg_pool : string;
    arg_threads : Z;
    arg_total_reads : Z;
    arg_enable_zipf_distribution : bool;
    arg_zipf_parm : Q }.

(** What the command line holds for each option once [type=] has converted
    it: [None] for an option that is not given, and for the flag [-z]
    whether it is there. *)
Record argv : Set :=
  { given_conf : option string;
    given_keyring : option string;
    given_pool : option string;
    given_threads : option Z;
    given_total_reads : option Z;
    given_enable_zipf_distribution : bool;
    given_zipf_parm : option Q }.

(** [x in range(lo, hi)]. *)
Definition in_range (lo hi x : Z) : bool := ((lo <=? x) && (x <? hi))%Z.

(** An option with [choices]: a given value outside them ends the program
    ([None]); the default is taken as it is. *)
Definition with_choices (lo hi : Z) (default_value : Z) (given : option Z)
  : option Z :=
  match given with
  | None => Some default_value
  | Some x => if in_range lo hi x then Some x else None
  end.

(** Lines 153-224; [int(1e4)+1] is 10001. *)
Definition parse_args (v : argv) : option args :=
  threads ← with_choices 0 31 10 (given_threads v);
  total_reads ← with_choices 1 10001 1000 (given_total_reads v);
  Some {| arg_conf := default "/etc/ceph/ceph.conf"%string (given_conf v);
          arg_keyring :=
            default "/etc/ceph/ceph.client.admin.keyring"%string
                    (given_keyring v);
          arg_pool := default "ec-fast-pool"%string (given_pool v);
          arg_threads := threads;
          arg_total_reads := total_reads;
          arg_enable_zipf_distribution := given_enable_zipf_distribution v;
          arg_zipf_parm := default (11 # 10)%Q (given_zipf_parm v) |}.

(** Line 146. *)
Definition main_threads (a : args) : Z :=
  if (arg_threads a <? arg_total_reads a)%Z then arg_threads a
  else arg_total_reads a.

(** Lines 136-151.  The connected cluster that [init] returns is the map
    from the names of its pools to the objects each pool lists:
    [pool_exists] looks a name up, [create_pool] adds an empty pool,
    [delete_pool] removes one, and [bench_test] lists the pool it opens.
    The result is the cluster as [main] leaves it, next to the outcome of
    [bench_test]; an exception of [bench_test] leaves [main] at once. *)
Definition main (zipf_pmf : Z -> Q -> option Q) (a : args)
    (cluster : gmap string (list rados_obj)) (g : rng)
    (schedule : list event)
  : gmap string (list rados_obj) * option (result summary) :=
  let new_create :=
    match cluster !! arg_pool a with
    | Some _ => false
    | None => true
    end in
  let cluster :=
    if new_create then <[arg_pool a := []]> cluster else cluster in
  let threads := main_threads a in
  match bench_test zipf_pmf (default [] (cluster !! arg_pool a)) threads
          (arg_total_reads a) (arg_enable_zipf_distribution a)
          (arg_zipf_parm a) g schedule with
  | Some (Ok report) =>
      (if new_create then delete (arg_pool a) cluster else cluster,
       Some (Ok report))
  | outcome => (cluster, outcome)
  end.

(** ** Schedules *)

(** One read: when it is issued, when its callback runs, and what the
    callback receives. *)
Record read_trace : Set :=
  { t_issue : Q; t_done : Q; t_data : option (list Byte.byte) }.

(** The run that serves one request after the other. *)
Definition one_read (r : read_trace) : list event :=
  [Submit; Take; Issue 0 (t_issue r); Complete 0 (t_done r) (t_data r)].

Definition sequential_schedule (reads : list read_trace) : list event :=
  concat (map one_read reads).

(** The slot of a read served alone. *)
Definition slot_of_read (r : read_trace) : slot :=
  match t_data r with
  | Some bytes =>
      {| s_start := t_issue r; s_end := t_done r;
         s_len := Z.of_nat (length bytes); s_finish := true |}
  | None =>
      {| s_start := t_issue r; s_end := t_done r; s_len := 0;
         s_finish := false |}
  end.

(** The callback of [e], if [e] is one, receives data. *)
Definition succeeds (e : event) : Prop :=
  match e with
  | Complete _ _ None => False
  | _ => True
  end.

(** Request [tid] is submitted and its read has not completed yet. *)
Definition pending (s : bench_state) (tid : nat) : Prop :=
  tid ∈ map fst (b_queue s)
  \/ tid ∈ map fst (b_running s)
  \/ tid ∈ map a_tid (b_inflight s).

Definition slot_finished (s : bench_state) (tid : nat) : Prop :=
  exists r, b_read_res s !! tid = Some r /\ s_finish r = true.

(** ** More vocabulary *)

(** The reads line 27 gives to a rank of probability [p] that is
    admitted. *)
Definition zipf_share (reads_num : Z) (p : Q) : Z :=
  (Qfloor (p * inject_Z reads_num) + 1)%Z.

Definition nonincreasing_Z (l : list Z) : Prop :=
  forall i j x y,
    i <= j -> l !! i = Some x -> l !! j = Some y -> (y <= x)%Z.

Definition nonincreasing_Q (l : list Q) : Prop :=
  forall i j x y,
    i <= j -> l !! i = Some x -> l !! j = Some y -> (y <= x)%Q.

(** ** More concrete inputs *)

Definition three_reads : list read_trace :=
  [ {| t_issue := 1; t_done := 2; t_data := Some [Byte.x00; Byte.x01] |};
    {| t_issue := 2; t_done := 4; t_data := Some [] |};
    {| t_issue := 4; t_done := 5; t_data := Some [Byte.x02] |} ].

Definition three_requests : list read_req := map req_of ex_listing.

Definition ex_cluster : gmap string (list rados_obj) :=
  {[ "ec-fast-pool"%string := ex_listing ]}.

Definition no_options : argv :=
  {| given_conf := None; given_keyring := None; given_pool := None;
     given_threads := None; given_total_reads := None;
     given_enable_zipf_distribution := false; given_zipf_parm := None |}.

Definition zero_threads : argv :=
  {| given_conf := None; given_keyring := None; given_pool := None;
     given_threads := Some 0%Z; given_total_reads := Some 5%Z;
     given_enable_zipf_distribution := false; given_zipf_parm := None |}.

Definition fresh_pool : argv :=
  {| given_conf := None; given_keyring := None;
     given_pool := Some "scratch"%string;
     given_threads := Some 4%Z; given_total_reads := Some 5%Z;
     given_enable_zipf_distribution := false; given_zipf_parm := None |}.

Definition three_in_turn : argv :=
  {| given_conf := None; given_keyring := None; given_pool := None;
     given_threads := Some 2%Z; given_total_reads := Some 3%Z;
     given_enable_zipf_distribution := false; given_zipf_parm := None |}.


(** * Subscripts *)

Section SubscriptFacts.
Context {A : Type}.
Implicit Types l : list A.

Lemma getitem_lookup l (k : Z) a :
  (0 <= k)%Z -> l !! Z.to_nat k = Some a -> getitem l k = Ok a.
Proof.
  intros Hk Hl. pose proof (lookup_lt_Some _ _ _ Hl) as Hlt.
  unfold getitem. destruct (Z.ltb_spec k 0) as [?|_]; [lia|].
  destruct (Z.leb_spec 0 k); [|lia].
  destruct (Z.ltb_spec k (Z.of_nat (length l))); [|lia].
  cbn. by rewrite Hl.
Qed.

Lemma getitem_in_range l (k : Z) :
  (0 <= k < Z.of_nat (length l))%Z ->
  exists a, getitem l k = Ok a /\ l !! Z.to_nat k = Some a.
Proof.
  intros Hk. destruct (lookup_lt_is_Some_2 l (Z.to_nat k)) as [a Ha]; [lia|].
  exists a. split; [apply getitem_lookup; [lia|done]|done].
Qed.

Lemma getitem_ok_lookup l (n : nat) a :
  getitem l (Z.of_nat n) = Ok a -> l !! n = Some a.
Proof.
  unfold getitem. destruct (Z.ltb_spec (Z.of_nat n) 0); [lia|].
  destruct (_ && _); [|done]. rewrite Nat2Z.id.
  destruct (l !! n); [|done]. by intros [= ->].
Qed.

Lemma alteritem_raises (f : A -> A) l k e :
  alteritem f l k = Raise e -> e = IndexError.
Proof.
  unfold alteritem. destruct (_ && _); [|congruence].
  destruct (l !! _); congruence.
Qed.

Lemma alteritem_in_range (f : A -> A) l (k : Z) :
  (0 <= k < Z.of_nat (length l))%Z ->
  exists a, l !! Z.to_nat k = Some a
            /\ alteritem f l k = Ok (<[Z.to_nat k := f a]> l).
Proof.
  intros Hk. destruct (lookup_lt_is_Some_2 l (Z.to_nat k)) as [a Ha]; [lia|].
  exists a. split; [done|]. unfold alteritem.
  destruct (Z.ltb_spec k 0) as [?|_]; [lia|].
  destruct (Z.leb_spec 0 k); [|lia].
  destruct (Z.ltb_spec k (Z.of_nat (length l))); [|lia].
  cbn. by rewrite Ha.
Qed.
End SubscriptFacts.

(** * [shuffle] returns a permutation *)

Section ShuffleFacts.
Context {A : Type}.
Implicit Types x : list A.

Lemma swap_in_range i j x :
  i < length x -> j < length x ->
  exists x', swap i j x = Ok x' /\ x' ≡ₚ x.
Proof.
  intros Hi Hj. unfold swap.
  destruct (lookup_lt_is_Some_2 x i Hi) as [xi Ei].
  destruct (lookup_lt_is_Some_2 x j Hj) as [xj Ej].
  rewrite Ei, Ej. eexists; split; [reflexivity|].
  by apply Permutation_insert_swap.
Qed.

Lemma shuffle_from_permutes n x g :
  n < length x \/ n = 0 ->
  exists x' g', shuffle_from n x g = Ok (x', g') /\ x' ≡ₚ x.
Proof.
  revert x g. induction n as [|n IH]; intros x g Hn.
  - exists x, g. done.
  - destruct Hn as [Hn|]; [|done].
    cbn [shuffle_from]. unfold randbelow.
    assert (Hj : g 0 mod S (S n) < length x).
    { pose proof (Nat.mod_upper_bound (g 0) (S (S n))). lia. }
    destruct (swap_in_range (S n) _ x Hn Hj) as (x1 & -> & Hp).
    cbn. destruct (IH x1 (fun k => g (S k))) as (x' & g' & E & Hp').
    { left. rewrite (Permutation_length Hp). lia. }
    exists x', g'. split; [exact E|]. by rewrite Hp'.
Qed.

Lemma shuffle_permutes x g :
  exists x' g', shuffle x g = Ok (x', g') /\ x' ≡ₚ x.
Proof.
  apply shuffle_from_permutes. destruct x; cbn; [right|left]; lia.
Qed.
End ShuffleFacts.

(** * The uniform sampler *)

Section UniformLoops.
Variable reads_num : Z.

(** The first loop returns at line 47 exactly when the target is reached
    inside the listing. *)
Lemma uniform_take_returns cluster_objects objs count :
  (count < reads_num <= count + Z.of_nat (length cluster_objects))%Z ->
  uniform_take reads_num cluster_objects objs count
  = inl (objs ++
         map req_of (take (Z.to_nat (reads_num - count)) cluster_objects)).
Proof.
  revert objs count.
  induction cluster_objects as [|obj rest IH]; intros objs count H;
    cbn [uniform_take length] in *; [lia|].
  destruct (Z.eqb_spec (count + 1) reads_num) as [E|E].
  - replace (Z.to_nat (reads_num - count)) with 1 by lia.
    cbn. by rewrite take_0.
  - rewrite IH by lia.
    replace (Z.to_nat (reads_num - count))
      with (S (Z.to_nat (reads_num - (count + 1)))) by lia.
    cbn. by rewrite <- app_assoc.
Qed.

Lemma uniform_take_falls cluster_objects objs count :
  (reads_num <= count \/
   count + Z.of_nat (length cluster_objects) < reads_num)%Z ->
  uniform_take reads_num cluster_objects objs count
  = inr (objs ++ map req_of cluster_objects,
         (count + Z.of_nat (length cluster_objects))%Z).
Proof.
  revert objs count.
  induction cluster_objects as [|obj rest IH]; intros objs count H;
    cbn [uniform_take length map] in *.
  - by rewrite app_nil_r, Z.add_0_r.
  - destruct (Z.eqb_spec (count + 1) reads_num) as [E|E]; [lia|].
    rewrite IH by lia. rewrite <- app_assoc. do 2 f_equal. lia.
Qed.
End UniformLoops.

Section WrapFacts.
Context {A : Type}.
Variable eq_dec : forall x y : A, {x = y} + {x <> y}.
Implicit Types base l : list A.

Lemma wraps_base base : wraps base base.
Proof. intros i Hi. by rewrite Nat.mod_small. Qed.

Lemma wraps_snoc base l x :
  base ≠ [] ->
  l !! (length l mod length base) = Some x ->
  wraps base l -> wraps base (l ++ [x]).
Proof.
  intros Hb Hx Hw i Hi. rewrite length_app in Hi. cbn in Hi.
  assert (0 < length base) by (destruct base; cbn; [done|lia]).
  destruct (decide (i < length l)) as [Hlt|Hge].
  - rewrite lookup_app_l by done. by apply Hw.
  - assert (i = length l) as -> by lia.
    rewrite lookup_app_r, Nat.sub_diag by lia. cbn.
    rewrite <- Hx. rewrite Hw by (by apply lookup_lt_Some in Hx).
    by rewrite Nat.Div0.mod_mod.
Qed.

Lemma wraps_split base l :
  wraps base l -> length base <= length l ->
  exists l', l = base ++ l' /\ wraps base l'.
Proof.
  intros Hw Hlen. exists (drop (length base) l). split.
  - rewrite <- (take_drop (length base) l) at 1. f_equal.
    apply list_eq. intros i.
    destruct (decide (i < length base)) as [Hi|Hi].
    + rewrite lookup_take_lt by done. rewrite Hw by lia.
      by rewrite Nat.mod_small.
    + rewrite lookup_take_ge by lia. symmetry. apply lookup_ge_None. lia.
  - intros i Hi. rewrite length_drop in Hi. rewrite lookup_drop.
    rewrite Hw by lia.
    replace (length base + i) with (i + 1 * length base) by lia.
    by rewrite Nat.Div0.mod_add.
Qed.

(** Every entry of [base] occurs once in each full turn. *)
Lemma wraps_count_occ base l x q :
  wraps base l -> x ∈ base -> q * length base <= length l ->
  q <= count_occ eq_dec l x.
Proof.
  intros Hw Hx. revert l Hw. induction q as [|q IH]; intros l Hw Hq; [lia|].
  destruct (wraps_split base l Hw) as (l' & -> & Hw'); [lia|].
  rewrite count_occ_app. rewrite length_app in Hq.
  specialize (IH l' Hw' ltac:(lia)).
  apply list_elem_of_In, (count_occ_In eq_dec) in Hx. lia.
Qed.
End WrapFacts.

Section CycleFacts.
Variable reads_num : Z.
Variable base : list read_req.
Hypothesis base_nonempty : base ≠ [].

(** The second loop extends a list that wraps around [base] into one that
    still does, up to length [reads_num]. *)
Lemma uniform_cycle_wraps objs count :
  count = Z.of_nat (length objs) ->
  length base <= length objs ->
  wraps base objs ->
  exists objs',
    uniform_cycle reads_num (Z.of_nat (length base)) objs count = Ok objs'
    /\ wraps base objs'
    /\ length objs' = Nat.max (length objs) (Z.to_nat reads_num).
Proof.
  remember (Z.of_nat (length base)) as obj_num eqn:EM.
  funelim (uniform_cycle reads_num obj_num objs count);
    intros Hc Hlen Hw.
  - exists objs. split; [done|]. split; [done|]. lia.
  - destruct base; cbn in *; [done|lia].
  - destruct (getitem_in_range objs (count mod Z.of_nat (length base)))
      as (o' & Ho & Hl).
    { pose proof (Z.mod_pos_bound count (Z.of_nat (length base))). lia. }
    rewrite Ho in Heq. injection Heq as ->.
    replace {| req_key := req_key o; req_len := req_len o |} with o in *
      by (by destruct o).
    rewrite Hc, <- Nat2Z.inj_mod, Nat2Z.id in Hl.
    destruct H as (objs' & E & Hw' & Hlen').
    + rewrite length_app. cbn. lia.
    + rewrite length_app. lia.
    + by apply wraps_snoc.
    + exists objs'. split; [done|]. split; [done|].
      rewrite Hlen', length_app. cbn. lia.
  - destruct (getitem_in_range objs (count mod Z.of_nat (length base)))
      as (o' & Ho & _); [|congruence].
    pose proof (Z.mod_pos_bound count (Z.of_nat (length base))). lia.
Qed.
End CycleFacts.

Section UniformSampler.
Variable zipf_pmf : Z -> Q -> option Q.
Variables (cluster_objects : list rados_obj) (reads_num : Z).
Variables (zipf_parm : Q) (g : rng).

Lemma prepare_objs_uniform_small :
  (1 <= reads_num <= Z.of_nat (length cluster_objects))%Z ->
  prepare_objs zipf_pmf cluster_objects reads_num false zipf_parm g
  = Ok (map req_of (take (Z.to_nat reads_num) cluster_objects), g).
Proof.
  intros H. unfold prepare_objs.
  rewrite uniform_take_returns by lia.
  by rewrite Z.sub_0_r.
Qed.

Lemma prepare_objs_uniform_large :
  (1 <= Z.of_nat (length cluster_objects) < reads_num)%Z ->
  exists objs g' pre,
    prepare_objs zipf_pmf cluster_objects reads_num false zipf_parm g
    = Ok (objs, g')
    /\ objs ≡ₚ pre
    /\ wraps (map req_of cluster_objects) pre
    /\ length pre = Z.to_nat reads_num.
Proof.
  intros H. unfold prepare_objs.
  rewrite uniform_take_falls by lia. cbn [app].
  assert (Hne : map req_of cluster_objects ≠ []).
  { destruct cluster_objects; cbn in *; [lia|done]. }
  destruct (uniform_cycle_wraps reads_num (map req_of cluster_objects) Hne
              (map req_of cluster_objects)
              (Z.of_nat (length cluster_objects)))
    as (pre & E & Hw & Hlen).
  { by rewrite length_map. }
  { done. }
  { apply wraps_base. }
  rewrite length_map in *. rewrite !Z.add_0_l, E. cbn.
  destruct (shuffle_permutes pre g) as (objs & g' & -> & Hp).
  exists objs, g', pre. split_and!; [done|done|done|lia].
Qed.

(** C9: in uniform mode with 1 <= N <= M the sampler returns the first N
    entries of the listing in listing order, each as the request that
    holds the key and the size of the entry; line 47 returns before the
    shuffle of line 54, so the result is the same for every state of the
    random generator, which is left as it was. *)
Theorem uniform_small_returns_listing_prefix :
  (1 <= reads_num <= Z.of_nat (length cluster_objects))%Z ->
  prepare_objs zipf_pmf cluster_objects reads_num false zipf_parm g
  = Ok (map (fun obj =>
               {| req_key := KStr (obj_key obj); req_len := obj_size obj |})
            (take (Z.to_nat reads_num) cluster_objects),
        g).
Proof.
  intros [Hlow Hhigh]. unfold prepare_objs.
  assert (Hreturn : (0 < reads_num
                     <= 0 + Z.of_nat (length cluster_objects))%Z) by lia.
  rewrite (uniform_take_returns reads_num cluster_objects [] 0%Z Hreturn).
  cbn [app]. by rewrite Z.sub_0_r.
Qed.

(** C6: in uniform mode with 1 <= N <= M the output is a permutation of
    the first N entries (key, size) of the listing: it has N requests,
    and a request occurs in it as often as its (key, size) occurs among
    those entries. *)
Theorem uniform_small_permutes_listing_prefix :
  (1 <= reads_num <= Z.of_nat (length cluster_objects))%Z ->
  exists objs g',
    prepare_objs zipf_pmf cluster_objects reads_num false zipf_parm g
    = Ok (objs, g')
    /\ objs
       ≡ₚ map (fun obj =>
                 {| req_key := KStr (obj_key obj);
                    req_len := obj_size obj |})
              (take (Z.to_nat reads_num) cluster_objects)
    /\ Z.of_nat (length objs) = reads_num
    /\ forall r,
         count_occ read_req_eq_dec objs r
         = count_occ read_req_eq_dec
             (map (fun obj =>
                     {| req_key := KStr (obj_key obj);
                        req_len := obj_size obj |})
                  (take (Z.to_nat reads_num) cluster_objects)) r.
Proof.
  intros H. rewrite prepare_objs_uniform_small by done.
  eexists _, g. split_and!; [reflexivity|done| |done].
  rewrite length_map, length_take. lia.
Qed.

(** C7: in uniform mode with N > M >= 1 the output has exactly N requests,
    the request for the key and the size of any object of the listing
    occurs in it at least floor(N / M) times, and it is a rearrangement of
    the sequence whose position i holds the key and the size of entry
    i mod M of the listing. *)
Theorem uniform_large_cycles_through_listing :
  (1 <= Z.of_nat (length cluster_objects) < reads_num)%Z ->
  exists objs g' pre,
    prepare_objs zipf_pmf cluster_objects reads_num false zipf_parm g
    = Ok (objs, g')
    /\ Z.of_nat (length objs) = reads_num
    /\ (forall obj, obj ∈ cluster_objects ->
          (reads_num / Z.of_nat (length cluster_objects)
           <= Z.of_nat
                (count_occ read_req_eq_dec objs
                   {| req_key := KStr (obj_key obj);
                      req_len := obj_size obj |}))%Z)
    /\ objs ≡ₚ pre
    /\ length pre = Z.to_nat reads_num
    /\ forall i obj,
         i < Z.to_nat reads_num ->
         cluster_objects !! (i mod length cluster_objects) = Some obj ->
         pre !! i
         = Some {| req_key := KStr (obj_key obj);
                   req_len := obj_size obj |}.
Proof.
  intros H.
  destruct (prepare_objs_uniform_large H) as (objs & g' & pre & E & Hp & Hw & Hn).
  exists objs, g', pre. split; [done|].
  split; [rewrite (Permutation_length Hp); lia|].
  split; [|split; [done|split; [done|]]].
  - intros obj Hobj.
    rewrite (proj1 (Permutation_count_occ read_req_eq_dec _ _) Hp).
    pose proof (wraps_count_occ read_req_eq_dec
                  (map req_of cluster_objects) pre (req_of obj)
                  (Z.to_nat (reads_num / Z.of_nat (length cluster_objects)))
                  Hw) as Hc.
    rewrite length_map in Hc.
    assert (0 <= reads_num / Z.of_nat (length cluster_objects))%Z
      by (apply Z.div_pos; lia).
    pose proof (Z.mul_div_le reads_num (Z.of_nat (length cluster_objects))).
    assert (req_of obj ∈ map req_of cluster_objects) as Hin
      by (by apply list_elem_of_fmap_2).
    specialize (Hc Hin). unfold req_of in Hc. lia.
  - intros i obj Hi Hobj. rewrite Hw by lia. rewrite length_map.
    rewrite list_lookup_fmap, Hobj. reflexivity.
Qed.
End UniformSampler.

Lemma uniform_small_returns_listing_prefix_witness :
  (1 <= 2 <= Z.of_nat (length ex_listing))%Z
  /\ prepare_objs ex_pmf ex_listing 2 false 2 ex_rng
     = Ok ([ {| req_key := KStr "obj_a"; req_len := 10 |};
             {| req_key := KStr "obj_b"; req_len := 20 |} ],
           ex_rng).
Proof.
  split; [cbn; lia|].
  apply (uniform_small_returns_listing_prefix ex_pmf ex_listing 2 2 ex_rng).
  cbn; lia.
Defined.

Lemma uniform_small_permutes_listing_prefix_witness :
  (1 <= 3 <= Z.of_nat (length ex_listing))%Z
  /\ exists objs g',
       prepare_objs ex_pmf ex_listing 3 false 2 ex_rng = Ok (objs, g')
       /\ objs
          ≡ₚ [ {| req_key := KStr "obj_a"; req_len := 10 |};
               {| req_key := KStr "obj_b"; req_len := 20 |};
               {| req_key := KStr "obj_c"; req_len := 30 |} ]
       /\ Z.of_nat (length objs) = 3%Z
       /\ forall r,
            count_occ read_req_eq_dec objs r
            = count_occ read_req_eq_dec
                [ {| req_key := KStr "obj_a"; req_len := 10 |};
                  {| req_key := KStr "obj_b"; req_len := 20 |};
                  {| req_key := KStr "obj_c"; req_len := 30 |} ] r.
Proof.
  split; [cbn; lia|].
  apply (uniform_small_permutes_listing_prefix ex_pmf ex_listing 3 2 ex_rng).
  cbn; lia.
Defined.

Lemma uniform_large_cycles_through_listing_witness :
  (1 <= Z.of_nat (length ex_listing) < 7)%Z
  /\ exists objs g' pre,
       prepare_objs ex_pmf ex_listing 7 false 2 ex_rng = Ok (objs, g')
       /\ Z.of_nat (length objs) = 7%Z
       /\ (forall obj, obj ∈ ex_listing ->
             (7 / Z.of_nat (length ex_listing)
              <= Z.of_nat
                   (count_occ read_req_eq_dec objs
                      {| req_key := KStr (obj_key obj);
                         req_len := obj_size obj |}))%Z)
       /\ objs ≡ₚ pre
       /\ length pre = Z.to_nat 7
       /\ forall i obj,
            i < Z.to_nat 7 ->
            ex_listing !! (i mod length ex_listing) = Some obj ->
            pre !! i
            = Some {| req_key := KStr (obj_key obj);
                      req_len := obj_size obj |}.
Proof.
  split; [cbn; lia|].
  apply (uniform_large_cycles_through_listing ex_pmf ex_listing 7 2 ex_rng).
  cbn; lia.
Defined.

(** * Rationals *)

Section RationalFacts.
Local Open Scope Q_scope.

Lemma fold_left_Qplus l a : fold_left Qplus l a == a + Qsum l.
Proof.
  revert a. induction l as [|x l IH]; intros a; cbn.
  - ring.
  - rewrite IH. ring.
Qed.

Lemma py_sum_Qsum l : py_sum l == Qsum l.
Proof. unfold py_sum. rewrite fold_left_Qplus. ring. Qed.

Lemma Qsum_pos l : l ≠ [] -> Forall (fun p => 0 < p) l -> 0 < Qsum l.
Proof.
  intros Hne Hall. destruct Hall as [|x l Hx Hl]; [done|]. clear Hne. cbn.
  assert (0 <= Qsum l); [|lra].
  induction Hl as [|y l Hy Hl IH]; cbn; lra.
Qed.

(** Weights that are not negative, one of them positive, have a positive
    sum. *)
Lemma Qsum_pos_some l :
  Forall (fun p => 0 <= p) l -> (exists p, p ∈ l /\ 0 < p) -> 0 < Qsum l.
Proof.
  intros Hall (p & Hin & Hp).
  induction Hall as [|x l Hx Hl IH]; [by apply elem_of_nil in Hin|].
  assert (0 <= Qsum l) as H0.
  { clear -Hl. induction Hl as [|y l Hy Hl IH]; cbn; lra. }
  cbn. apply elem_of_cons in Hin as [<-|Hin]; [lra|].
  specialize (IH Hin). lra.
Qed.

Lemma Qsum_scaled l s :
  ~ s == 0 -> Qsum (map (fun p => p / s) l) == Qsum l / s.
Proof.
  intros Hs. induction l as [|x l IH]; cbn.
  - field. done.
  - rewrite IH. field. done.
Qed.

Lemma py_int_nonneg x : 0 <= x -> py_int x = Qfloor x.
Proof.
  intros H. unfold py_int. apply Qle_bool_iff in H. by rewrite H.
Qed.

Lemma Qlt_bool_iff x y : Qlt_bool x y = true <-> x < y.
Proof.
  unfold Qlt_bool. rewrite negb_true_iff.
  destruct (Qle_bool y x) eqn:E.
  - apply Qle_bool_iff in E. split; [done|]. intros. lra.
  - split; [|done]. intros _. apply Qnot_le_lt. intros H.
    apply Qle_bool_iff in H. congruence.
Qed.

Lemma Qlt_bool_false x y : Qlt_bool x y = false -> y <= x.
Proof.
  intros E. apply Qnot_lt_le. intros H. apply Qlt_bool_iff in H. congruence.
Qed.

Lemma Qeq_bool_false x y : ~ x == y -> Qeq_bool x y = false.
Proof.
  intros H. destruct (Qeq_bool x y) eqn:E; [|done].
  apply Qeq_bool_iff in E. done.
Qed.

Lemma Qfloor_nonneg x : 0 <= x -> (0 <= Qfloor x)%Z.
Proof.
  intros H. pose proof (Qfloor_resp_le _ _ H) as H0.
  by change (Qfloor 0) with 0%Z in H0.
Qed.
End RationalFacts.

Lemma Zsum_nonneg cs : Forall (fun c => (0 <= c)%Z) cs -> (0 <= Zsum cs)%Z.
Proof. induction 1; cbn; lia. Qed.

Lemma Zsum_Permutation l l' : l ≡ₚ l' -> Zsum l = Zsum l'.
Proof. induction 1; cbn; lia. Qed.

(** * The Zipf sampler *)

Section ZipfAllocation.
Variable reads_num : Z.
Hypothesis reads_nonneg : (0 <= reads_num)%Z.

(** The loop of lines 26-29 on finite probabilities [ps]: every rank gets
    [floor(p * N) + 1] reads until the total reaches [N], so the total is
    at most [N * sum ps + length ps], and it is at least [N] or at least
    [N * sum ps]. *)
Lemma zipf_alloc_bounds ps objs_c count :
  Forall (fun p => (0 <= p)%Q) ps ->
  exists cs count',
    zipf_alloc reads_num (map Fin ps) objs_c count
    = Ok (objs_c ++ cs, count')
    /\ length cs = length ps
    /\ Forall (fun c => (0 <= c)%Z) cs
    /\ count' = (count + Zsum cs)%Z
    /\ (inject_Z (Zsum cs)
        <= Qsum ps * inject_Z reads_num
           + inject_Z (Z.of_nat (length ps)))%Q
    /\ ((reads_num <= count')%Z
        \/ (Qsum ps * inject_Z reads_num <= inject_Z (Zsum cs))%Q).
Proof.
  intros Hps. revert objs_c count.
  induction Hps as [|p ps Hp Hps IH]; intros objs_c count.
  - exists [], count. cbn. rewrite app_nil_r, Z.add_0_r.
    split_and!; try done. right. change (inject_Z 0) with 0%Q. lra.
  - assert (Hx : (0 <= p * inject_Z reads_num)%Q).
    { apply Qmult_le_0_compat; [done|].
      change 0%Q with (inject_Z 0). by rewrite <- Zle_Qle. }
    cbn [zipf_alloc map length].
    rewrite Nat2Z.inj_succ, <- Z.add_1_r, inject_Z_plus.
    change (inject_Z 1) with 1%Q.
    destruct (Z.ltb_spec count reads_num) as [Hlt|Hge]; cbn.
    + rewrite py_int_nonneg by done.
      set (c := (Qfloor (p * inject_Z reads_num) + 1)%Z).
      destruct (IH (objs_c ++ [c]) (count + c)%Z)
        as (cs & count' & E & Hlen & Hcs & Hcount & Hup & Hlow).
      pose proof (Qfloor_le (p * inject_Z reads_num)) as Hfl.
      pose proof (Qlt_floor (p * inject_Z reads_num)) as Hfu.
      pose proof (Qfloor_nonneg _ Hx) as Hf0.
      exists (c :: cs), count'. rewrite E, <- app_assoc. cbn.
      rewrite inject_Z_plus. fold c in Hfu.
      assert (inject_Z c == inject_Z (Qfloor (p * inject_Z reads_num)) + 1)%Q
        as Hce by (subst c; by rewrite inject_Z_plus).
      split_and!; try done.
      * by rewrite Hlen.
      * constructor; [subst c; lia|done].
      * lia.
      * lra.
      * destruct Hlow as [?|?]; [by left|right; lra].
    + destruct (IH (objs_c ++ [0%Z]) (count + 0)%Z)
        as (cs & count' & E & Hlen & Hcs & Hcount & Hup & Hlow).
      pose proof (Zsum_nonneg cs Hcs).
      exists (0%Z :: cs), count'. rewrite E, <- app_assoc. cbn.
      rewrite Z.add_0_l.
      split_and!; try done.
      * by rewrite Hlen.
      * by constructor.
      * lia.
      * lra.
      * left. lia.
Qed.
End ZipfAllocation.

Section ZipfExpansion.

Lemma zipf_emit_from obj m : forall j objs,
  1 <= j ->
  fold_left (zipf_emit obj) (seq j m)
    (KStr (obj_key obj), obj_size obj, objs)
  = (KStr (obj_key obj), obj_size obj, objs ++ replicate m (req_of obj)).
Proof.
  induction m as [|m IH]; intros j objs Hj; cbn [seq fold_left replicate].
  - by rewrite app_nil_r.
  - unfold zipf_emit at 2. destruct j; [lia|]. cbn [Nat.eqb].
    rewrite IH by lia. by rewrite <- app_assoc.
Qed.

(** The inner loop appends [n] copies of the request of [obj]: the key is
    set at [j = 0], before the first append. *)
Lemma zipf_emit_run obj n key length objs :
  snd (fold_left (zipf_emit obj) (seq 0 n) (key, length, objs))
  = objs ++ replicate n (req_of obj).
Proof.
  destruct n as [|n]; cbn [seq fold_left replicate].
  - cbn. by rewrite app_nil_r.
  - unfold zipf_emit at 2. cbn [Nat.eqb].
    rewrite zipf_emit_from by lia. cbn. by rewrite <- app_assoc.
Qed.

Lemma zipf_expand_spec objs_c cluster_objects : forall i objs,
  i + length cluster_objects <= length objs_c ->
  zipf_expand objs_c i cluster_objects objs
  = Ok (objs ++ zipf_expansion (drop i objs_c) cluster_objects).
Proof.
  unfold zipf_expansion.
  induction cluster_objects as [|obj rest IH]; intros i objs Hlen;
    cbn [zipf_expand length] in *.
  - destruct (drop i objs_c); cbn; by rewrite app_nil_r.
  - destruct (getitem_in_range objs_c (Z.of_nat i)) as (c & -> & Hc);
      [lia|].
    rewrite Nat2Z.id in Hc. rewrite (drop_S _ _ _ Hc). cbn.
    pose proof (zipf_emit_run obj (Z.to_nat c) (KInt 0) 0%Z objs) as Hrun.
    destruct (fold_left _ _ _) as [[? ?] objs'] eqn:E. cbn in Hrun.
    subst objs'. rewrite IH by lia. by rewrite <- app_assoc.
Qed.

Lemma zipf_expansion_length objs_c : forall cluster_objects,
  length objs_c = length cluster_objects ->
  Forall (fun c => (0 <= c)%Z) objs_c ->
  Z.of_nat (length (zipf_expansion objs_c cluster_objects)) = Zsum objs_c.
Proof.
  unfold zipf_expansion.
  induction objs_c as [|c cs IH]; intros [|obj rest] Hlen Hall;
    cbn in *; try done.
  inversion Hall; subst.
  rewrite length_app, length_replicate, Nat2Z.inj_add, IH by (done || lia).
  lia.
Qed.
End ZipfExpansion.
Section Weights.

Lemma np_sum_from raw acc :
  fold_left np_add (map Some raw) (Some acc) = Some (fold_left Qplus raw acc).
Proof.
  revert acc. induction raw as [|p raw IH]; intros acc; cbn; [done|].
  apply IH.
Qed.

(** [sum] of finite weights is the sum of the weights. *)
Lemma np_sum_finite raw : np_sum (map Some raw) = Some (py_sum raw).
Proof. apply np_sum_from. Qed.

Lemma np_sum_nan_from l : fold_left np_add l None = None.
Proof. induction l as [|p l IH]; cbn; [done|]. exact IH. Qed.

(** [sum] is [nan] as soon as one weight is. *)
Lemma np_sum_nan l : None ∈ l -> np_sum l = None.
Proof.
  unfold np_sum. generalize (Some 0%Q).
  induction l as [|p l IH]; intros acc Hin; [by apply elem_of_nil in Hin|].
  cbn. apply elem_of_cons in Hin as [<-|Hin].
  - destruct acc; cbn; apply np_sum_nan_from.
  - by apply IH.
Qed.

Variable zipf_pmf : Z -> Q -> option Q.
Variables (cluster_objects : list rados_obj) (zipf_parm : Q).

(** Line 23 on weights that are all finite. *)
Lemma zipf_probabilities_finite :
  (forall i, (1 <= i <= Z.of_nat (length cluster_objects))%Z ->
     is_Some (zipf_pmf i zipf_parm)) ->
  zipf_probabilities zipf_pmf cluster_objects zipf_parm
  = match map (fun i => default 0%Q (zipf_pmf (Z.of_nat i) zipf_parm))
              (seq 1 (length cluster_objects)) with
    | [] => Raise TypeError
    | raw => Ok (map (fun p => np_div p (py_sum raw)) raw)
    end.
Proof.
  intros Hfin. unfold zipf_probabilities.
  set (raw := map (fun i => default 0%Q (zipf_pmf (Z.of_nat i) zipf_parm))
                  (seq 1 (length cluster_objects))).
  assert (E : map (fun i => zipf_pmf (Z.of_nat i) zipf_parm)
                  (seq 1 (length cluster_objects))
              = map Some raw).
  { subst raw. rewrite map_map. apply map_ext_in. intros i Hi.
    apply in_seq in Hi.
    destruct (Hfin (Z.of_nat i) ltac:(lia)) as [q ->]. done. }
  rewrite E. clearbody raw. cbv zeta. rewrite np_sum_finite.
  destruct raw as [|p raw]; [done|].
  cbn [map]. f_equal. rewrite map_map. reflexivity.
Qed.

(** Line 27 on a weight that is [nan]: [int(nan)] raises. *)
Lemma prepare_objs_zipf_nan reads_num g :
  (1 <= reads_num)%Z ->
  (exists i, (1 <= i <= Z.of_nat (length cluster_objects))%Z
             /\ zipf_pmf i zipf_parm = None) ->
  prepare_objs zipf_pmf cluster_objects reads_num true zipf_parm g
  = Raise ValueError.
Proof.
  intros HN (i & Hi & Hnan). unfold prepare_objs, zipf_probabilities.
  set (objs_p := map (fun i => zipf_pmf (Z.of_nat i) zipf_parm)
                     (seq 1 (length cluster_objects))).
  assert (Hin : None ∈ objs_p).
  { subst objs_p. rewrite <- Hnan.
    replace i with (Z.of_nat (Z.to_nat i)) by lia.
    apply (list_elem_of_fmap_2 (fun i => zipf_pmf (Z.of_nat i) zipf_parm)).
    apply elem_of_seq. lia. }
  cbv zeta. rewrite (np_sum_nan _ Hin). clearbody objs_p.
  destruct objs_p as [|p objs_p]; [by apply elem_of_nil in Hin|].
  cbn [map mbind result_bind zipf_alloc].
  assert (np_quot p None = NaN) as -> by (by destruct p).
  destruct (Z.ltb_spec 0 reads_num); [|lia]. reflexivity.
Qed.
End Weights.

Section ZipfSampler.
Variable zipf_pmf : Z -> Q -> option Q.
Variables (cluster_objects : list rados_obj) (reads_num : Z).
Variables (zipf_parm : Q) (g : rng).

Hypothesis reads_pos : (1 <= reads_num)%Z.
Hypothesis pmf_nonneg :
  forall i, (1 <= i <= Z.of_nat (length cluster_objects))%Z ->
    exists q, zipf_pmf i zipf_parm = Some q /\ (0 <= q)%Q.
Hypothesis pmf_some_pos :
  exists i q, (1 <= i <= Z.of_nat (length cluster_objects))%Z
              /\ zipf_pmf i zipf_parm = Some q /\ (0 < q)%Q.

(** Line 23 turns weights that are not negative, one of them positive,
    into finite probabilities that sum to one. *)
Lemma zipf_probabilities_normalised :
  exists ps,
    zipf_probabilities zipf_pmf cluster_objects zipf_parm = Ok (map Fin ps)
    /\ length ps = length cluster_objects
    /\ Forall (fun p => (0 <= p)%Q) ps
    /\ (Qsum ps == 1)%Q.
Proof.
  rewrite zipf_probabilities_finite.
  2:{ intros i Hi. destruct (pmf_nonneg i Hi) as (q & -> & _). done. }
  set (raw := map (fun i => default 0%Q (zipf_pmf (Z.of_nat i) zipf_parm))
                  (seq 1 (length cluster_objects))).
  assert (Hnn : Forall (fun p => (0 <= p)%Q) raw).
  { subst raw. apply Forall_fmap, Forall_forall. intros i Hi.
    apply elem_of_seq in Hi. unfold compose.
    destruct (pmf_nonneg (Z.of_nat i) ltac:(lia)) as (q & -> & Hq). done. }
  assert (Hsome : exists p, p ∈ raw /\ (0 < p)%Q).
  { destruct pmf_some_pos as (i & q & Hi & Hq & Hpos). exists q.
    split; [|done]. subst raw.
    replace q with (default 0%Q (zipf_pmf (Z.of_nat (Z.to_nat i)) zipf_parm)).
    - apply (list_elem_of_fmap_2
               (fun i => default 0%Q (zipf_pmf (Z.of_nat i) zipf_parm))).
      apply elem_of_seq. lia.
    - replace (Z.of_nat (Z.to_nat i)) with i by lia. by rewrite Hq. }
  assert (Hlen : length raw = length cluster_objects).
  { subst raw. by rewrite length_map, length_seq. }
  clearbody raw.
  pose proof (Qsum_pos_some raw Hnn Hsome) as Hs.
  rewrite <- py_sum_Qsum in Hs.
  assert (Hs0 : ~ (py_sum raw == 0)%Q) by lra.
  exists (map (fun p => (p / py_sum raw)%Q) raw).
  split_and!.
  - destruct raw as [|p0 raw'] eqn:E.
    { destruct Hsome as (p & Hin & _). by apply elem_of_nil in Hin. }
    rewrite <- E in Hs0 |- *.
    f_equal. rewrite map_map. apply map_ext. intros p.
    unfold np_div. by rewrite Qeq_bool_false.
  - by rewrite length_map.
  - apply Forall_fmap. eapply Forall_impl; [exact Hnn|].
    intros p Hp. unfold compose. cbn beta in Hp |- *.
    apply Qle_shift_div_l; lra.
  - rewrite Qsum_scaled by done. rewrite <- py_sum_Qsum. field. done.
Qed.

(** The Zipf branch returns a rearrangement of the expansion of the
    shuffled allocation, whose length is the allocated total. *)
Lemma prepare_objs_zipf :
  exists objs g' ps objs_c count shuffled_c,
    prepare_objs zipf_pmf cluster_objects reads_num true zipf_parm g
    = Ok (objs, g')
    /\ zipf_probabilities zipf_pmf cluster_objects zipf_parm = Ok (map Fin ps)
    /\ zipf_alloc reads_num (map Fin ps) [] 0%Z = Ok (objs_c, count)
    /\ shuffled_c ≡ₚ objs_c
    /\ objs ≡ₚ zipf_expansion shuffled_c cluster_objects
    /\ Z.of_nat (length objs) = count
    /\ (reads_num <= count
        <= reads_num + Z.of_nat (length cluster_objects))%Z.
Proof.
  destruct zipf_probabilities_normalised as (ps & Ep & Hlen & Hps & Hsum).
  destruct (zipf_alloc_bounds reads_num ltac:(lia) ps [] 0%Z Hps)
    as (objs_c & count & Ea & Hlc & Hcs & Hcount & Hup & Hlow).
  cbn [app] in Ea. rewrite Z.add_0_l in Hcount.
  destruct (shuffle_permutes objs_c g) as (objs_c' & g1 & Es & Hperm).
  pose proof (zipf_expand_spec objs_c' cluster_objects 0 []) as Ee.
  rewrite (Permutation_length Hperm), Hlc, Hlen in Ee.
  specialize (Ee ltac:(lia)). cbn [app] in Ee. rewrite drop_0 in Ee.
  set (pre := zipf_expansion objs_c' cluster_objects) in *.
  destruct (shuffle_permutes pre g1) as (objs & g' & Ef & Hperm').
  assert (Hpre : Z.of_nat (length objs) = count).
  { rewrite (Permutation_length Hperm'). subst pre.
    rewrite zipf_expansion_length.
    - rewrite (Zsum_Permutation _ _ Hperm). lia.
    - rewrite (Permutation_length Hperm). lia.
    - by rewrite Hperm. }
  assert (Hbounds :
    (reads_num <= count <= reads_num + Z.of_nat (length cluster_objects))%Z).
  { rewrite Hlen in Hup. rewrite <- Hcount in Hup, Hlow.
    rewrite Hsum, Qmult_1_l in Hup, Hlow.
    rewrite <- inject_Z_plus, <- Zle_Qle in Hup.
    rewrite <- Zle_Qle in Hlow. lia. }
  exists objs, g', ps, objs_c, count, objs_c'.
  refine (conj _ (conj Ep (conj Ea (conj Hperm (conj Hperm'
            (conj Hpre Hbounds)))))).
  unfold prepare_objs. rewrite Ep. cbn. rewrite Ea. cbn.
  rewrite Es. cbn. rewrite Ee. cbn. exact Ef.
Qed.

End ZipfSampler.

(** C3, amended: in Zipf mode, for a listing of M >= 1 objects and a
    target N >= 1, what the sampler does depends on the weights
    [zipf.pmf] gives the M ranks at the skew parameter.  When they are
    not negative and one of them is positive, the sampler returns a
    sequence whose length L is the total the allocation loop reached, not
    cut and not padded, with N <= L <= N + M and so |L - N| <= M.  When
    one of them is [nan], line 27 raises [ValueError] and no sequence is
    returned. *)
Theorem zipf_length_within_listing_size
    zipf_pmf cluster_objects reads_num zipf_parm g :
  cluster_objects ≠ [] ->
  (1 <= reads_num)%Z ->
  ((forall i, (1 <= i <= Z.of_nat (length cluster_objects))%Z ->
      exists q, zipf_pmf i zipf_parm = Some q /\ (0 <= q)%Q) ->
   (exists i q, (1 <= i <= Z.of_nat (length cluster_objects))%Z
                /\ zipf_pmf i zipf_parm = Some q /\ (0 < q)%Q) ->
   exists objs g' objs_p objs_c count,
     prepare_objs zipf_pmf cluster_objects reads_num true zipf_parm g
     = Ok (objs, g')
     /\ zipf_probabilities zipf_pmf cluster_objects zipf_parm = Ok objs_p
     /\ zipf_alloc reads_num objs_p [] 0%Z = Ok (objs_c, count)
     /\ Z.of_nat (length objs) = count
     /\ (reads_num <= count
         <= reads_num + Z.of_nat (length cluster_objects))%Z
     /\ (Z.abs (Z.of_nat (length objs) - reads_num)
         <= Z.of_nat (length cluster_objects))%Z)
  /\ ((exists i, (1 <= i <= Z.of_nat (length cluster_objects))%Z
                 /\ zipf_pmf i zipf_parm = None) ->
      prepare_objs zipf_pmf cluster_objects reads_num true zipf_parm g
      = Raise ValueError).
Proof.
  intros Hne HN. split.
  - intros Hnn Hsome.
    destruct (prepare_objs_zipf zipf_pmf cluster_objects reads_num zipf_parm
                g HN Hnn Hsome)
      as (objs & g' & ps & objs_c & count & shuffled_c
          & E & Ep & Ea & _ & _ & Hlen & Hbounds).
    exists objs, g', (map Fin ps), objs_c, count.
    refine (conj E (conj Ep (conj Ea (conj Hlen (conj Hbounds _))))). lia.
  - by apply prepare_objs_zipf_nan.
Qed.

Lemma ex_pmf_pos i : exists q, ex_pmf i 2 = Some q /\ (0 < q)%Q.
Proof. eexists. split; reflexivity. Qed.

Lemma ex_pmf_nonneg i : exists q, ex_pmf i 2 = Some q /\ (0 <= q)%Q.
Proof. eexists. split; [reflexivity|]. discriminate. Qed.

Lemma ex_pmf_some_pos n :
  (1 <= n)%Z ->
  exists i q, (1 <= i <= n)%Z /\ ex_pmf i 2 = Some q /\ (0 < q)%Q.
Proof. intros Hn. exists 1%Z, 1%Q. split; [lia|]. split; reflexivity. Qed.

Lemma zipf_length_within_listing_size_witness :
  ex_listing ≠ []
  /\ (1 <= 10)%Z
  /\ (forall i, (1 <= i <= Z.of_nat (length ex_listing))%Z ->
        exists q, ex_pmf i 2 = Some q /\ (0 <= q)%Q)
  /\ (exists i q, (1 <= i <= Z.of_nat (length ex_listing))%Z
                  /\ ex_pmf i 2 = Some q /\ (0 < q)%Q)
  /\ (exists objs g' objs_p objs_c count,
        prepare_objs ex_pmf ex_listing 10 true 2 ex_rng = Ok (objs, g')
        /\ zipf_probabilities ex_pmf ex_listing 2 = Ok objs_p
        /\ zipf_alloc 10 objs_p [] 0%Z = Ok (objs_c, count)
        /\ Z.of_nat (length objs) = count
        /\ (10 <= count <= 10 + Z.of_nat (length ex_listing))%Z
        /\ (Z.abs (Z.of_nat (length objs) - 10)
            <= Z.of_nat (length ex_listing))%Z)
  /\ (exists i, (1 <= i <= Z.of_nat (length ex_listing))%Z
                /\ ex_pmf i (1 # 2) = None)
  /\ prepare_objs ex_pmf ex_listing 10 true (1 # 2) ex_rng
     = Raise ValueError.
Proof.
  assert (Hne : ex_listing ≠ []) by done.
  assert (HN : (1 <= 10)%Z) by lia.
  assert (Hnn : forall i, (1 <= i <= Z.of_nat (length ex_listing))%Z ->
                  exists q, ex_pmf i 2 = Some q /\ (0 <= q)%Q)
    by (intros i _; apply ex_pmf_nonneg).
  assert (Hsome : exists i q, (1 <= i <= Z.of_nat (length ex_listing))%Z
                              /\ ex_pmf i 2 = Some q /\ (0 < q)%Q)
    by (apply ex_pmf_some_pos; cbn; lia).
  assert (Hnan : exists i, (1 <= i <= Z.of_nat (length ex_listing))%Z
                           /\ ex_pmf i (1 # 2) = None)
    by (exists 1%Z; split; [cbn; lia|reflexivity]).
  split; [exact Hne|]. split; [exact HN|]. split; [exact Hnn|].
  split; [exact Hsome|]. split; [|split; [exact Hnan|]].
  - exact (proj1 (zipf_length_within_listing_size ex_pmf ex_listing 10 2
                    ex_rng Hne HN) Hnn Hsome).
  - exact (proj2 (zipf_length_within_listing_size ex_pmf ex_listing 10
                    (1 # 2) ex_rng Hne HN) Hnan).
Defined.

(** C3, as stated, fails: the skew parameter 1/2 is above 0, and a pmf
    that is [nan] there, as scipy's is for every parameter not above 1,
    makes the sampler raise: no sequence is returned, of any length. *)
Lemma zipf_skew_below_one_returns_nothing :
  ex_listing ≠ []
  /\ (1 <= 10)%Z
  /\ (0 < 1 # 2)%Q
  /\ prepare_objs ex_pmf ex_listing 10 true (1 # 2) ex_rng
     = Raise ValueError
  /\ ~ (exists objs g',
          prepare_objs ex_pmf ex_listing 10 true (1 # 2) ex_rng
          = Ok (objs, g')
          /\ (Z.abs (Z.of_nat (length objs) - 10)
              <= Z.of_nat (length ex_listing))%Z).
Proof.
  assert (E : prepare_objs ex_pmf ex_listing 10 true (1 # 2) ex_rng
              = Raise ValueError) by reflexivity.
  split; [done|]. split; [lia|]. split; [reflexivity|]. split; [exact E|].
  intros (objs & g' & E' & _). rewrite E in E'. discriminate.
Qed.

(** * The aggregator *)

Section CollectLoop.
Implicit Types (res : list slot) (c : collected) (r : slot).

Lemma collect_one_skips c r : s_finish r = false -> collect_one c r = Ok c.
Proof. intros H. unfold collect_one. by rewrite H. Qed.

Lemma collect_loop_unfinished res c :
  Forall (fun r => s_finish r = false) res -> collect_loop res c = Ok c.
Proof.
  induction 1 as [|r res Hr _ IH]; cbn; [done|].
  by rewrite collect_one_skips.
Qed.

(** The only exception of the loop is the division of line 100. *)
Lemma collect_one_raises c r e :
  collect_one c r = Raise e ->
  e = ZeroDivisionError /\ s_finish r = true /\ (s_end r == s_start r)%Q.
Proof.
  unfold collect_one, py_div. destruct (s_finish r); cbn; [|done].
  destruct (Qeq_bool (s_end r - s_start r) 0) eqn:E; cbn; [|done].
  intros [= <-]. apply Qeq_bool_iff in E. split_and!; try done. lra.
Qed.

Lemma collect_one_zero_duration c r :
  s_finish r = true -> (s_end r == s_start r)%Q ->
  collect_one c r = Raise ZeroDivisionError.
Proof.
  intros Hf He. unfold collect_one, py_div. rewrite Hf. cbn.
  assert (s_end r - s_start r == 0)%Q as H by lra.
  apply Qeq_bool_iff in H. by rewrite H.
Qed.

Lemma collect_one_completed c r :
  s_finish r = true -> ~ (s_end r == s_start r)%Q ->
  collect_one c r
  = Ok {| base_t := if Qeq_bool (base_t c) 0
                       || Qlt_bool (s_start r) (base_t c)
                    then s_start r else base_t c;
          end_ := end_ c ++ [s_end r];
          bw_mbs := bw_mbs c ++ [bandwidth r];
          lat := lat c ++ [duration r] |}.
Proof.
  intros Hf He. unfold collect_one, py_div. rewrite Hf. cbn.
  rewrite (Qeq_bool_false (s_end r - s_start r) 0); [reflexivity|].
  intros H. apply He. lra.
Qed.

Lemma collect_loop_raises res c e :
  collect_loop res c = Raise e -> e = ZeroDivisionError.
Proof.
  revert c. induction res as [|r res IH]; intros c; cbn; [done|].
  destruct (collect_one c r) eqn:E; cbn; [apply IH|].
  intros [= <-]. by apply collect_one_raises in E as [-> _].
Qed.

Lemma collect_loop_zero_duration res c r :
  r ∈ res -> s_finish r = true -> (s_end r == s_start r)%Q ->
  collect_loop res c = Raise ZeroDivisionError.
Proof.
  intros Hin Hf He. revert c.
  induction Hin as [r res|r r' res Hin IH]; intros c; cbn.
  - by rewrite collect_one_zero_duration.
  - destruct (collect_one c r') eqn:E; cbn; [by apply IH|].
    by apply collect_one_raises in E as [-> _].
Qed.

(** With no zero duration among the completed slots the loop ends, and its
    lists hold one entry per completed slot, in the order of the slots. *)
Lemma collect_loop_lists res : forall c,
  Forall (fun r => s_finish r = true -> ~ (s_end r == s_start r)%Q) res ->
  exists c',
    collect_loop res c = Ok c'
    /\ end_ c' = end_ c ++ map s_end (completed res)
    /\ bw_mbs c' = bw_mbs c ++ map bandwidth (completed res)
    /\ lat c' = lat c ++ map duration (completed res).
Proof.
  induction res as [|r res IH]; intros c Hall; cbn [collect_loop].
  - exists c. cbn. by rewrite !app_nil_r.
  - inversion Hall as [|? ? Hr Hres]; subst.
    unfold completed. rewrite filter_cons. fold (completed res).
    destruct (s_finish r) eqn:Hf.
    + rewrite collect_one_completed by auto. cbn [mbind result_bind].
      match goal with |- context [collect_loop res ?c1] =>
        destruct (IH c1 Hres) as (c' & -> & He & Hb & Hl) end.
      cbn in He, Hb, Hl.
      exists c'. rewrite He, Hb, Hl. rewrite decide_True by done. cbn.
      by rewrite <- !app_assoc.
    + rewrite collect_one_skips by done. cbn [mbind result_bind].
      rewrite decide_False by done. by apply IH.
Qed.

(** A slot that did not complete does not count. *)
Lemma collect_loop_delete_unfinished res : forall i c r,
  res !! i = Some r -> s_finish r = false ->
  collect_loop res c = collect_loop (delete i res) c.
Proof.
  induction res as [|r0 res IH]; intros i c r Hi Hf; [done|].
  destruct i as [|i]; cbn in *.
  - injection Hi as ->. by rewrite collect_one_skips.
  - destruct (collect_one c r0); cbn; [|done]. by eapply IH.
Qed.

Lemma statistics_delete_unfinished res i r :
  res !! i = Some r -> s_finish r = false ->
  collect_statistics res = collect_statistics (delete i res)
  /\ collect_and_print_statistics res
     = collect_and_print_statistics (delete i res).
Proof.
  intros Hi Hf.
  unfold collect_and_print_statistics, collect_statistics.
  by rewrite (collect_loop_delete_unfinished res i _ r Hi Hf).
Qed.
End CollectLoop.

Section Raises.

Lemma count_iops_raises base ends : forall iops e,
  count_iops base ends iops = Raise e -> e = IndexError.
Proof.
  induction ends as [|x ends IH]; intros iops e; cbn; [done|].
  destruct (alteritem _ _ _) eqn:E; cbn; [apply IH|].
  intros [= <-]. by apply alteritem_raises in E.
Qed.

Lemma py_max_raises {A} (ltb : A -> A -> bool) l e :
  py_max ltb l = Raise e -> e = ValueError.
Proof. destruct l; cbn; congruence. Qed.

Lemma collect_statistics_raises res e :
  collect_statistics res = Raise e ->
  e = ZeroDivisionError /\ collect_loop res collected_init = Raise e
  \/ e <> ZeroDivisionError.
Proof.
  unfold collect_statistics.
  destruct (collect_loop res collected_init) as [c|e'] eqn:E; cbn.
  - destruct (Nat.eqb _ _); [done|].
    destruct (py_max _ _) eqn:Em; cbn.
    + destruct (count_iops _ _ _) eqn:Ec; cbn; [done|].
      intros [= <-]. apply count_iops_raises in Ec as ->. by right.
    + intros [= <-]. apply py_max_raises in Em as ->. by right.
  - intros [= <-]. left. by apply collect_loop_raises in E as ->.
Qed.

Lemma len_Q_nonzero {A} (x : A) l : Qeq_bool (len_Q (x :: l)) 0 = false.
Proof.
  apply Qeq_bool_false. unfold len_Q. cbn [length].
  change 0%Q with (inject_Z 0). rewrite inject_Z_injective. lia.
Qed.

(** The averages of [print_statistics] divide by a length that [min] has
    found positive. *)
Lemma print_statistics_no_zero_division bw iops lat_ :
  print_statistics bw iops lat_ <> Raise ZeroDivisionError.
Proof.
  unfold print_statistics, py_div.
  destruct bw as [|b bw]; [done|]. rewrite len_Q_nonzero.
  destruct iops as [|i iops]; [done|]. rewrite len_Q_nonzero.
  destruct lat_ as [|l lat_]; [done|]. rewrite len_Q_nonzero.
  done.
Qed.
End Raises.

(** C8: when no slot of the result array has completed, the three lists
    handed to [print_statistics] are [0] each (one zero sample per metric
    family) and the report is computed, all zeros, without any division
    error. *)
Theorem no_completion_gives_zero_samples res :
  Forall (fun r => s_finish r = false) res ->
  collect_statistics res = Ok ([0%Q], [0%Z], [0%Q])
  /\ collect_and_print_statistics res = Ok zero_summary.
Proof.
  intros H. unfold collect_and_print_statistics, collect_statistics.
  rewrite collect_loop_unfinished by done. cbn. done.
Qed.

Lemma no_completion_gives_zero_samples_witness :
  Forall (fun r => s_finish r = false) idle_slots
  /\ collect_statistics idle_slots = Ok ([0%Q], [0%Z], [0%Q])
  /\ collect_and_print_statistics idle_slots = Ok zero_summary.
Proof.
  assert (H : Forall (fun r => s_finish r = false) idle_slots)
    by (repeat constructor).
  split; [exact H|]. exact (no_completion_gives_zero_samples idle_slots H).
Defined.

(** C10: line 100 divides by [end - start] without a guard.  When every
    completed slot ends strictly after it started, the loop of lines 95-101
    returns, with the bandwidth of each completed slot, and the aggregator
    raises no [ZeroDivisionError]; a completed slot whose end equals its
    start makes the loop, and the aggregator, raise it. *)
Theorem bandwidth_total_iff_durations_nonzero res :
  (Forall (fun r => s_finish r = true -> (s_start r < s_end r)%Q) res ->
   exists c,
     collect_loop res collected_init = Ok c
     /\ bw_mbs c = map bandwidth (completed res)
     /\ collect_and_print_statistics res <> Raise ZeroDivisionError)
  /\ (forall r,
        r ∈ res -> s_finish r = true -> (s_end r == s_start r)%Q ->
        collect_loop res collected_init = Raise ZeroDivisionError
        /\ collect_and_print_statistics res = Raise ZeroDivisionError).
Proof.
  split.
  - intros H.
    destruct (collect_loop_lists res collected_init) as (c & E & _ & Hb & _).
    { eapply Forall_impl; [exact H|]. cbn. intros r Hr Hf He.
      specialize (Hr Hf). lra. }
    exists c. split_and!; [done|done|].
    unfold collect_and_print_statistics.
    destruct (collect_statistics res) as [[[bw iops] l]|e] eqn:Es; cbn.
    + apply print_statistics_no_zero_division.
    + intros [= ->].
      apply collect_statistics_raises in Es as [[_ Es]|]; congruence.
  - intros r Hin Hf He.
    pose proof (collect_loop_zero_duration res collected_init r Hin Hf He) as E.
    split; [done|].
    unfold collect_and_print_statistics, collect_statistics. by rewrite E.
Qed.

Lemma bandwidth_total_iff_durations_nonzero_witness :
  Forall (fun r => s_finish r = true -> (s_start r < s_end r)%Q) two_reads
  /\ exists c,
       collect_loop two_reads collected_init = Ok c
       /\ bw_mbs c = map bandwidth (completed two_reads)
       /\ collect_and_print_statistics two_reads <> Raise ZeroDivisionError.
Proof.
  assert (H : Forall (fun r => s_finish r = true -> (s_start r < s_end r)%Q)
                     two_reads).
  { repeat constructor; cbn; intros; (reflexivity || discriminate). }
  split; [exact H|].
  exact (proj1 (bandwidth_total_iff_durations_nonzero two_reads) H).
Defined.

(** C5: a callback invoked with no data (a failed read) raises at line 61
    after line 60 has stamped the end time: the slot keeps its start, its
    byte count and [finish = False], its end becomes the time of the
    callback, and the aggregator computes what it computes without the
    slot. *)
Theorem failed_read_keeps_slot_unfinished tid now read_res r :
  read_res !! tid = Some r -> s_finish r = false ->
  exists read_res',
    aio_read_complete tid now None read_res = (read_res', Raise TypeError)
    /\ read_res' = <[tid := set_end now r]> read_res
    /\ read_res' !! tid
       = Some {| s_start := s_start r; s_end := now; s_len := s_len r;
                 s_finish := false |}
    /\ collect_statistics read_res'
       = collect_statistics (delete tid read_res')
    /\ collect_and_print_statistics read_res'
       = collect_and_print_statistics (delete tid read_res').
Proof.
  intros Hr Hf. exists (<[tid := set_end now r]> read_res).
  assert (Hl : <[tid := set_end now r]> read_res !! tid
               = Some (set_end now r)).
  { apply list_lookup_insert_eq. by eapply lookup_lt_Some. }
  split_and!.
  - unfold aio_read_complete, update_slot. by rewrite Hr.
  - done.
  - rewrite Hl. unfold set_end. by rewrite Hf.
  - by eapply statistics_delete_unfinished.
  - by eapply statistics_delete_unfinished.
Qed.

Lemma failed_read_keeps_slot_unfinished_witness :
  stamped_slots !! 0 = Some (set_start 3 default_slot)
  /\ s_finish (set_start 3 default_slot) = false
  /\ exists read_res',
       aio_read_complete 0 5 None stamped_slots = (read_res', Raise TypeError)
       /\ read_res' = <[0 := set_end 5 (set_start 3 default_slot)]> stamped_slots
       /\ read_res' !! 0
          = Some {| s_start := s_start (set_start 3 default_slot);
                    s_end := 5;
                    s_len := s_len (set_start 3 default_slot);
                    s_finish := false |}
       /\ collect_statistics read_res'
          = collect_statistics (delete 0 read_res')
       /\ collect_and_print_statistics read_res'
          = collect_and_print_statistics (delete 0 read_res').
Proof.
  split; [reflexivity|]. split; [reflexivity|].
  exact (failed_read_keeps_slot_unfinished 0 5 stamped_slots
           (set_start 3 default_slot) eq_refl eq_refl).
Defined.

(** C5, as stated, fails: after the failing callback at second 5 the slot
    issued at second 3 is not in its state before the callback, its end
    is no longer 0. *)
Lemma failed_read_stamps_end :
  ~ (forall r',
       fst (aio_read_complete 0 5 None stamped_slots) !! 0 = Some r' ->
       r' = set_start 3 default_slot /\ (s_end r' == 0)%Q).
Proof.
  intros H. destruct (H _ eq_refl) as [_ H0]. cbn in H0. lra.
Qed.

Section BaseTime.

Lemma base_invariant_step b seen r :
  ~ (s_start r == 0)%Q ->
  base_invariant b seen ->
  base_invariant
    (if Qeq_bool b 0 || Qlt_bool (s_start r) b then s_start r else b)
    (seen ++ [r]).
Proof.
  intros Hr [[-> ->]|[Hb [(r0 & Hr0 & Eb) Hmin]]]; right.
  - change (Qeq_bool 0 0) with true. cbn [orb app].
    split; [done|]. split.
    + exists r. split; [apply list_elem_of_singleton|]; done.
    + intros r' ->%list_elem_of_singleton. lra.
  - rewrite Qeq_bool_false by done. cbn [orb].
    destruct (Qlt_bool (s_start r) b) eqn:E.
    + apply Qlt_bool_iff in E. split; [done|]. split.
      * exists r. split; [|done]. apply elem_of_app. right.
        by apply list_elem_of_singleton.
      * intros r' [Hr'|Hr']%elem_of_app.
        -- specialize (Hmin r' Hr'). lra.
        -- apply list_elem_of_singleton in Hr' as ->. lra.
    + apply Qlt_bool_false in E.
      split; [done|]. split.
      * exists r0. split; [|done]. apply elem_of_app. by left.
      * intros r' [Hr'|Hr']%elem_of_app; [by apply Hmin|].
        by apply list_elem_of_singleton in Hr' as ->.
Qed.

(** Lines 92 and 98 compute the smallest start of the completed slots when
    none of them starts at the sentinel [0]. *)
Lemma collect_loop_base res : forall c seen c',
  Forall (fun r => s_finish r = true -> ~ (s_start r == 0)%Q) res ->
  base_invariant (base_t c) seen ->
  collect_loop res c = Ok c' ->
  base_invariant (base_t c') (seen ++ completed res).
Proof.
  induction res as [|r res IH]; intros c seen c' Hall Hinv;
    cbn [collect_loop].
  - intros [= <-]. cbn. by rewrite app_nil_r.
  - inversion Hall as [|? ? Hr Hres]; subst.
    unfold completed. rewrite filter_cons. fold (completed res).
    destruct (s_finish r) eqn:Hf.
    + rewrite decide_True by done.
      destruct (collect_one c r) as [c1|] eqn:E; cbn; [|done].
      intros Hloop.
      replace (seen ++ r :: completed res)
        with ((seen ++ [r]) ++ completed res) by (by rewrite <- app_assoc).
      apply (IH c1); [done| |done].
      unfold collect_one, py_div in E. rewrite Hf in E. cbn in E.
      destruct (Qeq_bool (s_end r - s_start r) 0); [done|].
      cbn in E. injection E as <-. cbn.
      apply base_invariant_step; auto.
    + rewrite decide_False by done. rewrite collect_one_skips by done.
      cbn. by apply IH.
Qed.
End BaseTime.

Section Maximum.

Lemma fold_max_spec l : forall x,
  let m := fold_left (fun m y => if Qlt_bool m y then y else m) l x in
  m ∈ x :: l /\ forall y, y ∈ x :: l -> (y <= m)%Q.
Proof.
  induction l as [|z l IH]; intros x; cbn.
  - split; [apply list_elem_of_here|].
    intros y ->%list_elem_of_singleton. lra.
  - destruct (IH (if Qlt_bool x z then z else x)) as [Hin Hmax].
    cbn in Hin, Hmax. split.
    + apply elem_of_cons in Hin as [->|Hin].
      * destruct (Qlt_bool x z); [|apply list_elem_of_here].
        apply list_elem_of_further, list_elem_of_here.
      * by do 2 apply list_elem_of_further.
    + assert (Hstep : (x <= if Qlt_bool x z then z else x)%Q
                      /\ (z <= if Qlt_bool x z then z else x)%Q).
      { destruct (Qlt_bool x z) eqn:E.
        - apply Qlt_bool_iff in E. lra.
        - apply Qlt_bool_false in E. lra. }
      pose proof (Hmax _ (list_elem_of_here _ _)) as H0.
      intros y [->|Hy]%elem_of_cons; [lra|].
      apply elem_of_cons in Hy as [->|Hy]; [lra|].
      apply Hmax. by apply list_elem_of_further.
Qed.

Lemma py_max_spec l :
  l ≠ [] ->
  exists m, py_max Qlt_bool l = Ok m
            /\ m ∈ l /\ forall y, y ∈ l -> (y <= m)%Q.
Proof.
  destruct l as [|x l]; [done|]. intros _. eexists. split; [done|].
  apply fold_max_spec.
Qed.
End Maximum.

Section Buckets.
Variable base : Q.

(** The loop of lines 110-111 adds to each bucket the number of ends it
    is the subscript of, when every subscript is in range. *)
Lemma count_iops_spec ends : forall iops,
  Forall (fun e => (0 <= py_int (e - base) < Z.of_nat (length iops))%Z)
         ends ->
  exists iops',
    count_iops base ends iops = Ok iops'
    /\ length iops' = length iops
    /\ forall k v, iops !! k = Some v ->
         iops' !! k = Some (v + hits base k ends)%Z.
Proof.
  induction ends as [|e ends IH]; intros iops Hall; cbn [count_iops].
  - exists iops. split_and!; [done|done|].
    intros k v ->. unfold hits. cbn. by rewrite Z.add_0_r.
  - inversion Hall as [|? ? He Hends]; subst.
    destruct (alteritem_in_range Z.succ iops _ He) as (a & Ha & ->).
    cbn [mbind result_bind].
    set (i := Z.to_nat (py_int (e - base))) in *.
    destruct (IH (<[i := Z.succ a]> iops)) as (iops' & -> & Hlen & Hk).
    { by rewrite length_insert. }
    exists iops'. rewrite length_insert in Hlen. split_and!; [done|done|].
    intros k v Hv. unfold hits. rewrite filter_cons.
    destruct (decide (i = k)) as [<-|Hne].
    + rewrite decide_True by lia. cbn [length].
      rewrite (Hk i (Z.succ a)).
      * f_equal. unfold hits. rewrite Ha in Hv. injection Hv as ->. lia.
      * apply list_lookup_insert_eq. by eapply lookup_lt_Some.
    + rewrite decide_False by lia.
      apply Hk. by rewrite list_lookup_insert_ne.
Qed.

Lemma hits_in_bucket k (l : list slot) :
  Forall (fun r => (0 <= s_end r - base)%Q) l ->
  hits base k (map s_end l) = Z.of_nat (length (in_bucket base k l)).
Proof.
  unfold hits, in_bucket. intros Hall. f_equal.
  induction Hall as [|r l Hr _ IH]; [done|].
  cbn [map]. rewrite !filter_cons, py_int_nonneg by done.
  destruct (decide _); cbn [length]; by rewrite IH.
Qed.
End Buckets.

(** C4, amended: when some slot completed and every completed slot has a
    start other than 0 and an end after its start, the aggregator takes as
    base time the smallest start of the completed slots, builds exactly
    floor(max end - base) + 1 buckets (the [int] of line 108 truncates, it
    does not round up), and bucket k holds the number of completed slots
    with floor(end - base) = k. *)
Theorem iops_buckets_anchored_at_first_start res :
  completed res ≠ [] ->
  Forall (fun r => s_finish r = true ->
                   ~ (s_start r == 0)%Q /\ (s_start r < s_end r)%Q) res ->
  exists c iops max_end,
    collect_loop res collected_init = Ok c
    /\ collect_statistics res = Ok (bw_mbs c, iops, lat c)
    /\ is_min_start (base_t c) (completed res)
    /\ is_max_end max_end (completed res)
    /\ Z.of_nat (length iops) = (Qfloor (max_end - base_t c) + 1)%Z
    /\ forall k, k < length iops ->
         iops !! k
         = Some (Z.of_nat (length (in_bucket (base_t c) k (completed res)))).
Proof.
  intros Hne Hall.
  destruct (collect_loop_lists res collected_init)
    as (c & Eloop & Hend & Hbw & _).
  { eapply Forall_impl; [exact Hall|]. cbn. intros r Hr Hf He.
    destruct (Hr Hf). lra. }
  cbn [collected_init end_ bw_mbs app] in Hend, Hbw.
  (* the base time *)
  pose proof (collect_loop_base res collected_init [] c) as Hbase.
  cbn [app] in Hbase.
  destruct Hbase as [[? _]|[Hbpos Hmin]]; [|by left|done|done|].
  { eapply Forall_impl; [exact Hall|]. cbn. intros r Hr Hf. by apply Hr. }
  (* what the hypothesis says of the completed slots *)
  assert (Hcompl : forall r, r ∈ completed res -> (s_start r < s_end r)%Q).
  { intros r [Hf Hin]%list_elem_of_filter.
    rewrite Forall_forall in Hall. by apply Hall. }
  (* the largest end *)
  destruct (py_max_spec (end_ c)) as (m & Emax & Hmin_in & Hmax).
  { rewrite Hend. by destruct (completed res). }
  assert (Hm : is_max_end m (completed res)).
  { rewrite Hend in Hmin_in, Hmax. split.
    - apply list_elem_of_fmap in Hmin_in as (r & -> & Hr). by exists r.
    - intros r Hr. apply Hmax. by apply list_elem_of_fmap_2. }
  (* every end lies in a bucket *)
  assert (Hdiff : forall r, r ∈ completed res ->
            (0 <= s_end r - base_t c)%Q
            /\ (s_end r - base_t c <= m - base_t c)%Q).
  { intros r Hr. destruct Hmin as [_ Hmin], Hm as [_ Hm].
    specialize (Hmin r Hr). specialize (Hm r Hr).
    specialize (Hcompl r Hr). split; lra. }
  assert (Hm0 : (0 <= m - base_t c)%Q).
  { destruct Hm as [(r & Hr & ->) _]. by apply Hdiff. }
  set (n := Z.to_nat (py_int (m - base_t c) + 1)).
  assert (Hn : Z.of_nat n = (Qfloor (m - base_t c) + 1)%Z).
  { subst n. rewrite py_int_nonneg by done.
    pose proof (Qfloor_nonneg _ Hm0). lia. }
  destruct (count_iops_spec (base_t c) (end_ c) (replicate n 0%Z))
    as (iops & Ecount & Hlen & Hk).
  { rewrite Hend, length_replicate, Hn. apply Forall_fmap, Forall_forall.
    intros r Hr. unfold compose. destruct (Hdiff r Hr) as [H0 H1].
    rewrite py_int_nonneg by done.
    pose proof (Qfloor_nonneg _ H0).
    pose proof (Qfloor_resp_le _ _ H1). lia. }
  rewrite length_replicate in Hlen.
  exists c, iops, m. split_and!; try done.
  - unfold collect_statistics. rewrite Eloop. cbn [mbind result_bind].
    rewrite Hbw, length_map.
    destruct (completed res) eqn:Ec; [done|]. cbn [length Nat.eqb].
    rewrite <- Ec, Emax. cbn [mbind result_bind]. fold n.
    by rewrite Ecount.
  - lia.
  - intros k Hlt. rewrite (Hk k 0%Z).
    + rewrite Z.add_0_l, Hend, hits_in_bucket; [done|].
      apply Forall_forall. intros r Hr. by apply Hdiff.
    + apply lookup_replicate_2. lia.
Qed.

Lemma iops_buckets_anchored_at_first_start_witness :
  completed two_reads ≠ []
  /\ Forall (fun r => s_finish r = true ->
                      ~ (s_start r == 0)%Q /\ (s_start r < s_end r)%Q)
            two_reads
  /\ exists c iops max_end,
       collect_loop two_reads collected_init = Ok c
       /\ collect_statistics two_reads = Ok (bw_mbs c, iops, lat c)
       /\ is_min_start (base_t c) (completed two_reads)
       /\ is_max_end max_end (completed two_reads)
       /\ Z.of_nat (length iops) = (Qfloor (max_end - base_t c) + 1)%Z
       /\ forall k, k < length iops ->
            iops !! k
            = Some (Z.of_nat
                      (length (in_bucket (base_t c) k (completed two_reads)))).
Proof.
  assert (Hne : completed two_reads ≠ []) by discriminate.
  assert (Hall : Forall (fun r => s_finish r = true ->
                           ~ (s_start r == 0)%Q /\ (s_start r < s_end r)%Q)
                        two_reads).
  { repeat constructor; cbn; (discriminate || reflexivity). }
  split; [exact Hne|]. split; [exact Hall|].
  exact (iops_buckets_anchored_at_first_start two_reads Hne Hall).
Defined.

(** C4, as stated, fails: for one read from second 1 to second 3.5 the
    aggregator builds 3 buckets, not ceil(3.5 - 1) + 1 = 4. *)
Lemma iops_bucket_count_is_not_ceiling :
  ~ (forall c bw iops lat_ max_end,
       collect_loop one_long_read collected_init = Ok c ->
       collect_statistics one_long_read = Ok (bw, iops, lat_) ->
       is_max_end max_end (completed one_long_read) ->
       is_min_start (base_t c) (completed one_long_read)
       /\ Z.of_nat (length iops) = (Qceiling (max_end - base_t c) + 1)%Z).
Proof.
  intros H.
  destruct (H _ _ _ _ (7 # 2)%Q eq_refl eq_refl) as [_ Hlen].
  - split.
    + eexists. split; [apply list_elem_of_here|reflexivity].
    + intros r ->%list_elem_of_singleton. cbn. lra.
  - vm_compute in Hlen. discriminate.
Qed.

(** Why the amended C4 asks for starts other than 0: a completed slot that
    starts at 0 resets the base time of line 98, and here the first end
    then lies before the base. *)
Example base_time_sentinel_is_zero :
  collect_statistics epoch_start_reads = Raise IndexError.
Proof. reflexivity. Qed.

(** * The dispatcher *)

Section SlotUpdates.
Implicit Types (read_res : list slot) (f : slot -> slot).

Lemma update_slot_ok f tid read_res read_res' :
  update_slot f tid read_res = Ok read_res' ->
  length read_res' = length read_res
  /\ forall j, j <> tid -> read_res' !! j = read_res !! j.
Proof.
  unfold update_slot. destruct (read_res !! tid); [|done].
  intros [= <-]. split; [apply length_insert|].
  intros j Hj. by apply list_lookup_insert_ne.
Qed.

Lemma update_slot_in_range f tid read_res :
  tid < length read_res ->
  exists read_res', update_slot f tid read_res = Ok read_res'.
Proof.
  intros H. unfold update_slot.
  destruct (lookup_lt_is_Some_2 _ _ H) as [r ->]. by eexists.
Qed.

(** [obj_aio_read] writes slot [tid] only and issues the read of [obj]. *)
Lemma obj_aio_read_ok tid read_res obj now read_res' completion :
  obj_aio_read tid read_res obj now = Ok (read_res', completion) ->
  length read_res' = length read_res
  /\ (forall j, j <> tid -> read_res' !! j = read_res !! j)
  /\ completion = {| a_tid := tid; a_key := req_key obj;
                     a_len := req_len obj; a_offset := 0 |}.
Proof.
  unfold obj_aio_read.
  destruct (update_slot _ _ _) as [rr|] eqn:E; cbn; [|done].
  intros [= <- <-]. apply update_slot_ok in E as [? ?]. done.
Qed.

Lemma obj_aio_read_in_range tid read_res obj now :
  tid < length read_res ->
  exists out, obj_aio_read tid read_res obj now = Ok out.
Proof.
  intros H. unfold obj_aio_read.
  destruct (update_slot_in_range (set_start now) tid read_res H) as [rr ->].
  by eexists.
Qed.

(** The callback writes slot [tid] only, whether it raises or not. *)
Lemma aio_read_complete_frame tid now data read_res :
  let read_res' := fst (aio_read_complete tid now data read_res) in
  length read_res' = length read_res
  /\ forall j, j <> tid -> read_res' !! j = read_res !! j.
Proof.
  unfold aio_read_complete.
  destruct (update_slot (set_end now) _ _) as [r1|] eqn:E1; [|done].
  apply update_slot_ok in E1 as [L1 O1].
  destruct data as [bytes|]; [|done].
  destruct (update_slot (set_len _) _ _) as [r2|] eqn:E2; [|done].
  apply update_slot_ok in E2 as [L2 O2].
  destruct (update_slot (set_finish _) _ _) as [r3|] eqn:E3; cbn.
  - apply update_slot_ok in E3 as [L3 O3]. split; [congruence|].
    intros j Hj. by rewrite O3, O2, O1.
  - split; [congruence|]. intros j Hj. by rewrite O2, O1.
Qed.
End SlotUpdates.

Section DispatcherFacts.
Variables (threads_num reads_num : Z) (objs : list read_req).

Lemma bench_init_invariant :
  (0 <= threads_num)%Z ->
  bench_invariant threads_num reads_num objs (bench_init reads_num).
Proof.
  intros H. split; cbn; try done; try lia. by rewrite length_replicate.
Qed.

Lemma bench_step_invariant s e s' :
  bench_invariant threads_num reads_num objs s ->
  bench_step threads_num reads_num objs s e = Some (Ok s') ->
  bench_invariant threads_num reads_num objs s'.
Proof.
  intros [Hs Hn Hq Hr Hi Hc Hw].
  destruct e as [| |k now|k now data]; cbn [bench_step].
  - (* Submit *)
    destruct (Nat.ltb_spec (b_next s) (Z.to_nat reads_num)); [|done].
    destruct (getitem objs _) as [obj|] eqn:E; cbn; [|discriminate].
    intros [= <-]. apply getitem_ok_lookup in E.
    split; cbn; try done; try lia.
    + apply Forall_app. split.
      * eapply Forall_impl; [exact Hq|]. intros t [? ?]. split; cbn; [lia|done].
      * constructor; [|done]. split; cbn; [lia|done].
    + eapply Forall_impl; [exact Hr|]. intros t [? ?]. split; cbn; [lia|done].
    + eapply Forall_impl; [exact Hi|]. intros a [? ?]. split; cbn; [lia|done].
    + rewrite length_app. cbn. lia.
  - (* Take *)
    destruct (b_queue s) as [|task queue] eqn:Eq; [done|].
    destruct (Z.ltb_spec (Z.of_nat (length (b_running s))) threads_num);
      [|done].
    intros [= <-]. inversion Hq; subst.
    split; cbn in *; try done; try lia.
    + apply Forall_app. split; [done|]. by constructor.
    + rewrite length_app. cbn. lia.
    + rewrite length_app. cbn. lia.
  - (* Issue *)
    destruct (b_running s !! k) as [[tid obj]|] eqn:Ek; [|done].
    destruct (obj_aio_read _ _ _ _) as [[rr completion]|] eqn:E; cbn;
      [|discriminate].
    intros [= <-]. apply obj_aio_read_ok in E as (Hlen & _ & ->).
    pose proof (Forall_lookup_1 _ _ _ _ Hr Ek) as [Ht Ho]. cbn in Ht, Ho.
    pose proof (lookup_lt_Some _ _ _ Ek) as Hk.
    split; cbn; try done; try lia.
    + by apply Forall_delete.
    + apply Forall_app. split; [done|]. constructor; [|done].
      split; cbn; [done|]. by exists obj.
    + rewrite length_app, length_delete by done. cbn. lia.
    + rewrite length_delete by done. lia.
  - (* Complete *)
    destruct (b_inflight s !! k) as [a|] eqn:Ek; [|done].
    pose proof (aio_read_complete_frame (a_tid a) now data (b_read_res s))
      as [Hlen _].
    destruct (aio_read_complete _ _ _ _) as [rr out]. cbn in Hlen.
    intros [= <-].
    pose proof (lookup_lt_Some _ _ _ Ek) as Hk.
    split; cbn; try done; try lia.
    + by apply Forall_delete.
    + rewrite length_delete by done. lia.
Qed.

(** No event raises when there is a request for every slot. *)
Lemma bench_step_safe s e err :
  (reads_num <= Z.of_nat (length objs))%Z ->
  bench_invariant threads_num reads_num objs s ->
  bench_step threads_num reads_num objs s e <> Some (Raise err).
Proof.
  intros Hobjs [Hs Hn Hq Hr Hi Hc Hw].
  destruct e as [| |k now|k now data]; cbn [bench_step].
  - destruct (Nat.ltb_spec (b_next s) (Z.to_nat reads_num)); [|done].
    destruct (getitem_in_range objs (Z.of_nat (b_next s))) as (o & -> & _);
      [lia|done].
  - destruct (b_queue s); [done|]. by destruct (_ <? _)%Z.
  - destruct (b_running s !! k) as [[tid obj]|] eqn:Ek; [|done].
    pose proof (Forall_lookup_1 _ _ _ _ Hr Ek) as [Ht _]. cbn in Ht.
    destruct (obj_aio_read_in_range tid (b_read_res s) obj now)
      as [[rr a] ->]; [lia|done].
  - destruct (b_inflight s !! k); [|done].
    by destruct (aio_read_complete _ _ _ _).
Qed.

Lemma bench_run_invariant schedule : forall s s',
  bench_invariant threads_num reads_num objs s ->
  bench_run threads_num reads_num objs schedule s = Some (Ok s') ->
  bench_invariant threads_num reads_num objs s'.
Proof.
  induction schedule as [|e schedule IH]; intros s s' Hinv; cbn [bench_run].
  - by intros [= <-].
  - destruct (bench_step _ _ _ s e) as [[s1|]|] eqn:E; [|done|done].
    intros Hrun. apply (IH s1); [|done]. by eapply bench_step_invariant.
Qed.

Lemma bench_run_safe schedule : forall s err,
  (reads_num <= Z.of_nat (length objs))%Z ->
  bench_invariant threads_num reads_num objs s ->
  bench_run threads_num reads_num objs schedule s <> Some (Raise err).
Proof.
  induction schedule as [|e schedule IH]; intros s err Hobjs Hinv;
    cbn [bench_run]; [done|].
  destruct (bench_step _ _ _ s e) as [[s1|err1]|] eqn:E; [| |done].
  - apply IH; [done|]. by eapply bench_step_invariant.
  - by apply bench_step_safe in E.
Qed.

(** A step changes slot [j] only by stamping the start of request [j] or
    by running the callback of the read of request [j]. *)
Lemma bench_step_writes s e s' j :
  bench_invariant threads_num reads_num objs s ->
  bench_step threads_num reads_num objs s e = Some (Ok s') ->
  b_read_res s' !! j <> b_read_res s !! j ->
  writes_for objs s e j.
Proof.
  intros [Hs Hn Hq Hr Hi Hc Hw]. unfold writes_for.
  destruct e as [| |k now|k now data]; cbn [bench_step].
  - destruct (Nat.ltb _ _); [|done].
    destruct (getitem objs _); cbn; [|discriminate]. by intros [= <-].
  - destruct (b_queue s); [done|]. destruct (_ <? _)%Z; [|done].
    by intros [= <-].
  - destruct (b_running s !! k) as [[tid obj]|] eqn:Ek; [|done].
    destruct (obj_aio_read _ _ _ _) as [[rr completion]|] eqn:E; cbn;
      [|discriminate].
    intros [= <-]. cbn. apply obj_aio_read_ok in E as (_ & Hother & _).
    intros Hj. destruct (decide (j = tid)) as [->|Hne].
    + pose proof (Forall_lookup_1 _ _ _ _ Hr Ek) as [_ Ho]. cbn in Ho.
      exists obj. split; [done|]. left. by exists k, now.
    + by rewrite Hother in Hj.
  - destruct (b_inflight s !! k) as [a|] eqn:Ek; [|done].
    pose proof (aio_read_complete_frame (a_tid a) now data (b_read_res s))
      as [_ Hother].
    destruct (aio_read_complete _ _ _ _) as [rr out]. cbn in Hother.
    intros [= <-]. cbn. intros Hj.
    destruct (decide (j = a_tid a)) as [->|Hne].
    + pose proof (Forall_lookup_1 _ _ _ _ Hi Ek)
        as [_ (obj & Ho & Hkey & Hlen & _)].
      exists obj. split; [done|]. right. by exists k, now, data, a.
    + by rewrite Hother in Hj.
Qed.
End DispatcherFacts.

(** C1, amended: for 1 <= W <= N, at every moment of a run at most W tasks
    of the pool are executing [obj_aio_read], and the reads being issued
    or issued and not yet completed number at most N; a thread of the pool
    is free again as soon as it has issued its read, so the width of the
    pool does not bound the reads in flight. *)
Theorem pool_width_bounds_running_tasks
    threads_num reads_num objs schedule s :
  (1 <= threads_num <= reads_num)%Z ->
  bench_run threads_num reads_num objs schedule (bench_init reads_num)
  = Some (Ok s) ->
  (Z.of_nat (length (b_running s)) <= threads_num)%Z
  /\ (Z.of_nat (length (b_running s) + length (b_inflight s)) <= reads_num)%Z.
Proof.
  intros HW Hrun.
  pose proof (bench_run_invariant threads_num reads_num objs schedule _ _
                (bench_init_invariant threads_num reads_num objs ltac:(lia))
                Hrun) as [Hs Hn Hq Hr Hi Hc Hw].
  split; [done|lia].
Qed.

Lemma pool_width_bounds_running_tasks_witness :
  (1 <= 1 <= 2)%Z
  /\ bench_run 1 2 two_requests eager_schedule (bench_init 2)
     = Some (Ok {| b_next := 2; b_queue := []; b_running := [];
                   b_inflight :=
                     [ {| a_tid := 0; a_key := KStr "obj_a"; a_len := 10;
                          a_offset := 0 |};
                       {| a_tid := 1; a_key := KStr "obj_b"; a_len := 20;
                          a_offset := 0 |} ];
                   b_read_res :=
                     [set_start 1 default_slot; set_start 2 default_slot] |})
  /\ (Z.of_nat 0 <= 1)%Z
  /\ (Z.of_nat (0 + 2) <= 2)%Z.
Proof.
  split; [lia|]. split; [reflexivity|].
  exact (pool_width_bounds_running_tasks 1 2 two_requests eager_schedule _
           ltac:(lia) eq_refl).
Defined.

(** C1, as stated, fails: with a pool of one thread and two requests, both
    reads are in flight once the thread has issued them. *)
Lemma outstanding_reads_exceed_pool_width :
  (1 <= 1 <= 2)%Z
  /\ ~ (forall schedule s,
          bench_run 1 2 two_requests schedule (bench_init 2) = Some (Ok s) ->
          (Z.of_nat (length (b_inflight s)) <= 1)%Z).
Proof.
  split; [lia|].
  intros H. specialize (H eager_schedule _ eq_refl). cbn in H. lia.
Qed.

Section Run.
Variable zipf_pmf : Z -> Q -> option Q.
Variables (cluster_objects : list rados_obj) (threads_num reads_num : Z).
Variables (use_zipf : bool) (zipf_parm : Q) (g : rng).

(** C2, amended: for a listing of M >= 1 objects, N >= 1 and W >= 1 (and,
    in Zipf mode, weights of the M ranks that are not negative, one of
    them positive), there are N result slots throughout the run; the
    request sequence has length N in uniform mode and a length between N
    and N + M in Zipf mode; the task of slot i carries request i, for
    i < N, and slot i is written only for request i; no step of the run
    raises. *)
Theorem slots_follow_dispatched_requests :
  cluster_objects ≠ [] ->
  (1 <= reads_num)%Z ->
  (1 <= threads_num)%Z ->
  (use_zipf = true ->
   (forall i, (1 <= i <= Z.of_nat (length cluster_objects))%Z ->
      exists q, zipf_pmf i zipf_parm = Some q /\ (0 <= q)%Q)
   /\ exists i q, (1 <= i <= Z.of_nat (length cluster_objects))%Z
                  /\ zipf_pmf i zipf_parm = Some q /\ (0 < q)%Q) ->
  exists objs g',
    prepare_objs zipf_pmf cluster_objects reads_num use_zipf zipf_parm g
    = Ok (objs, g')
    /\ (use_zipf = false -> Z.of_nat (length objs) = reads_num)
    /\ (reads_num <= Z.of_nat (length objs)
        <= reads_num + Z.of_nat (length cluster_objects))%Z
    /\ forall schedule,
         (forall err,
            bench_run threads_num reads_num objs schedule
              (bench_init reads_num) <> Some (Raise err))
         /\ forall s,
              bench_run threads_num reads_num objs schedule
                (bench_init reads_num) = Some (Ok s) ->
              Z.of_nat (length (b_read_res s)) = reads_num
              /\ Forall (task_ok objs s) (b_queue s ++ b_running s)
              /\ Forall (aio_ok objs s) (b_inflight s)
              /\ forall e s' j,
                   bench_step threads_num reads_num objs s e = Some (Ok s') ->
                   b_read_res s' !! j <> b_read_res s !! j ->
                   writes_for objs s e j.
Proof.
  intros Hne HN HW Hpmf.
  assert (Hsample : exists objs g',
    prepare_objs zipf_pmf cluster_objects reads_num use_zipf zipf_parm g
    = Ok (objs, g')
    /\ (use_zipf = false -> Z.of_nat (length objs) = reads_num)
    /\ (reads_num <= Z.of_nat (length objs)
        <= reads_num + Z.of_nat (length cluster_objects))%Z).
  { assert (HM : (1 <= Z.of_nat (length cluster_objects))%Z).
    { destruct cluster_objects; cbn; [done|lia]. }
    destruct use_zipf.
    - destruct (Hpmf eq_refl) as [Hnn Hsome].
      destruct (prepare_objs_zipf zipf_pmf cluster_objects reads_num
                  zipf_parm g HN Hnn Hsome)
        as (objs & g' & ps & objs_c & count & shuffled_c
            & E & _ & _ & _ & _ & Hlen & Hbounds).
      exists objs, g'. split; [done|]. split; [done|lia].
    - destruct (Z_le_gt_dec reads_num (Z.of_nat (length cluster_objects)))
        as [Hsmall|Hlarge].
      + rewrite prepare_objs_uniform_small by lia.
        eexists _, g. split; [reflexivity|].
        rewrite length_map, length_take. split; [lia|lia].
      + destruct (prepare_objs_uniform_large zipf_pmf cluster_objects
                    reads_num zipf_parm g ltac:(lia))
          as (objs & g' & pre & E & Hp & _ & Hlen).
        exists objs, g'. split; [done|].
        rewrite (Permutation_length Hp). split; [lia|lia]. }
  destruct Hsample as (objs & g' & E & Huniform & Hbounds).
  exists objs, g'. split; [done|]. split; [done|]. split; [done|].
  pose proof (bench_init_invariant threads_num reads_num objs ltac:(lia))
    as Hinit.
  intros schedule. split.
  - intros err. apply bench_run_safe; [lia|done].
  - intros s Hrun.
    pose proof (bench_run_invariant _ _ _ schedule _ _ Hinit Hrun) as Hinv.
    pose proof Hinv as [Hs Hn Hq Hr Hi Hc Hw].
    split; [lia|]. split; [by apply Forall_app|]. split; [done|].
    intros e s' j. by apply bench_step_writes.
Qed.
End Run.

Lemma slots_follow_dispatched_requests_witness :
  two_objects ≠ []
  /\ (1 <= 6)%Z
  /\ (1 <= 1)%Z
  /\ (true = true ->
      (forall i, (1 <= i <= Z.of_nat (length two_objects))%Z ->
         exists q, ex_pmf i 2 = Some q /\ (0 <= q)%Q)
      /\ exists i q, (1 <= i <= Z.of_nat (length two_objects))%Z
                     /\ ex_pmf i 2 = Some q /\ (0 < q)%Q)
  /\ exists objs g',
       prepare_objs ex_pmf two_objects 6 true 2 ex_rng = Ok (objs, g')
       /\ (true = false -> Z.of_nat (length objs) = 6%Z)
       /\ (6 <= Z.of_nat (length objs)
           <= 6 + Z.of_nat (length two_objects))%Z
       /\ forall schedule,
            (forall err,
               bench_run 1 6 objs schedule (bench_init 6)
               <> Some (Raise err))
            /\ forall s,
                 bench_run 1 6 objs schedule (bench_init 6) = Some (Ok s) ->
                 Z.of_nat (length (b_read_res s)) = 6%Z
                 /\ Forall (task_ok objs s) (b_queue s ++ b_running s)
                 /\ Forall (aio_ok objs s) (b_inflight s)
                 /\ forall e s' j,
                      bench_step 1 6 objs s e = Some (Ok s') ->
                      b_read_res s' !! j <> b_read_res s !! j ->
                      writes_for objs s e j.
Proof.
  assert (Hw : true = true ->
            (forall i, (1 <= i <= Z.of_nat (length two_objects))%Z ->
               exists q, ex_pmf i 2 = Some q /\ (0 <= q)%Q)
            /\ exists i q, (1 <= i <= Z.of_nat (length two_objects))%Z
                           /\ ex_pmf i 2 = Some q /\ (0 < q)%Q).
  { intros _. split; [intros i _; apply ex_pmf_nonneg|].
    apply ex_pmf_some_pos. cbn. lia. }
  split; [done|]. split; [lia|]. split; [lia|]. split; [exact Hw|].
  apply (slots_follow_dispatched_requests ex_pmf two_objects 1 6 true 2 ex_rng).
  - done.
  - lia.
  - lia.
  - exact Hw.
Defined.

Lemma zipf_sample_of_six_has_seven :
  sampled_length (prepare_objs ex_pmf two_objects 6 true 2 ex_rng) = Some 7.
Proof. vm_compute. reflexivity. Qed.

(** C2, as stated, fails in Zipf mode: for two objects and N = 6 the
    sampler returns seven requests, the six slots do not match them. *)
Lemma zipf_requests_outnumber_slots :
  ~ (forall objs g',
       prepare_objs ex_pmf two_objects 6 true 2 ex_rng = Ok (objs, g') ->
       length (b_read_res (bench_init 6)) = length objs
       /\ Z.of_nat (length objs) = 6%Z).
Proof.
  intros H. pose proof zipf_sample_of_six_has_seven as Hlen.
  destruct (prepare_objs ex_pmf two_objects 6 true 2 ex_rng)
    as [[objs g']|] eqn:E; [|discriminate].
  cbn in Hlen. injection Hlen as Hlen.
  destruct (H objs g' eq_refl) as [_ H6]. lia.
Qed.

(** * More on the sampler *)

Section SamplerEdges.
Variable zipf_pmf : Z -> Q -> option Q.
Variables (reads_num : Z) (zipf_parm : Q) (g : rng).

Lemma uniform_cycle_done obj_num objs count :
  (reads_num <= count)%Z ->
  uniform_cycle reads_num obj_num objs count = Ok objs.
Proof.
  intros H. funelim (uniform_cycle reads_num obj_num objs count);
    try lia. done.
Qed.

Lemma uniform_cycle_no_objects objs count :
  (count < reads_num)%Z ->
  uniform_cycle reads_num 0 objs count = Raise ZeroDivisionError.
Proof.
  intros H. remember 0%Z as obj_num eqn:E0.
  funelim (uniform_cycle reads_num obj_num objs count); try lia; done.
Qed.

(** On a pool without objects the sampler raises for every target
    N >= 1: line 50 takes [count % 0] in uniform mode, line 23 divides a
    list by the integer [0] in Zipf mode. *)
Theorem prepare_objs_raises_on_empty_listing :
  (1 <= reads_num)%Z ->
  prepare_objs zipf_pmf [] reads_num false zipf_parm g
  = Raise ZeroDivisionError
  /\ prepare_objs zipf_pmf [] reads_num true zipf_parm g = Raise TypeError.
Proof.
  intros H. split; [|reflexivity].
  unfold prepare_objs. cbn [uniform_take].
  by rewrite uniform_cycle_no_objects by lia.
Qed.

(** A target N <= 0 does not give an empty workload in uniform mode: the
    test of line 46 never holds, the loop of line 49 is not entered, and
    the sampler returns a rearrangement of the whole listing, one request
    with the key and the size of each entry. *)
Theorem uniform_nonpositive_target_returns_listing cluster_objects :
  (reads_num <= 0)%Z ->
  exists objs g',
    prepare_objs zipf_pmf cluster_objects reads_num false zipf_parm g
    = Ok (objs, g')
    /\ objs
       ≡ₚ map (fun obj =>
                 {| req_key := KStr (obj_key obj);
                    req_len := obj_size obj |})
              cluster_objects.
Proof.
  intros H. unfold prepare_objs.
  rewrite uniform_take_falls by lia. cbn [app].
  rewrite uniform_cycle_done by lia. cbn.
  destruct (shuffle_permutes (map req_of cluster_objects) g)
    as (objs & g' & -> & Hp).
  by exists objs, g'.
Qed.
End SamplerEdges.

Lemma prepare_objs_raises_on_empty_listing_witness :
  (1 <= 5)%Z
  /\ prepare_objs ex_pmf [] 5 false 2 ex_rng = Raise ZeroDivisionError
  /\ prepare_objs ex_pmf [] 5 true 2 ex_rng = Raise TypeError.
Proof.
  split; [lia|].
  apply (prepare_objs_raises_on_empty_listing ex_pmf 5 2 ex_rng). lia.
Defined.

Lemma uniform_nonpositive_target_returns_listing_witness :
  (0 <= 0)%Z
  /\ exists objs g',
       prepare_objs ex_pmf ex_listing 0 false 2 ex_rng = Ok (objs, g')
       /\ objs
          ≡ₚ [ {| req_key := KStr "obj_a"; req_len := 10 |};
               {| req_key := KStr "obj_b"; req_len := 20 |};
               {| req_key := KStr "obj_c"; req_len := 30 |} ].
Proof.
  split; [lia|].
  apply (uniform_nonpositive_target_returns_listing ex_pmf 0 2 ex_rng
           ex_listing).
  lia.
Defined.

Section SamplerContents.

Lemma getitem_elem_of {A} (l : list A) k a : getitem l k = Ok a -> a ∈ l.
Proof.
  unfold getitem. destruct (_ && _); [|done].
  destruct (l !! _) eqn:E; [|done]. intros [= <-].
  by eapply list_elem_of_lookup_2.
Qed.

(** The loop of lines 49-52 only repeats requests it already has. *)
Lemma uniform_cycle_elems reads_num obj_num objs count objs' :
  uniform_cycle reads_num obj_num objs count = Ok objs' ->
  forall r, r ∈ objs' -> r ∈ objs.
Proof.
  funelim (uniform_cycle reads_num obj_num objs count); try done.
  - by intros [= <-].
  - intros Hrec r Hr.
    specialize (H _ Hrec r Hr).
    apply elem_of_app in H as [H|H]; [done|].
    apply list_elem_of_singleton in H as ->.
    apply getitem_elem_of in Heq. by destruct o.
Qed.

Lemma uniform_take_elems reads_num cluster_objects : forall objs count,
  let out := uniform_take reads_num cluster_objects objs count in
  forall r,
    r ∈ match out with inl l => l | inr (l, _) => l end ->
    r ∈ objs \/ exists obj, obj ∈ cluster_objects /\ r = req_of obj.
Proof.
  induction cluster_objects as [|obj rest IH]; intros objs count;
    cbn [uniform_take].
  - intros r Hr. by left.
  - destruct (_ =? _)%Z.
    + intros r [Hr|Hr]%elem_of_app; [by left|].
      apply list_elem_of_singleton in Hr as ->. right. exists obj.
      split; [apply list_elem_of_here|done].
    + intros r Hr. apply IH in Hr as [Hr|(o & Ho & ->)].
      * apply elem_of_app in Hr as [Hr|Hr]; [by left|].
        apply list_elem_of_singleton in Hr as ->. right. exists obj.
        split; [apply list_elem_of_here|done].
      * right. exists o. split; [by apply list_elem_of_further|done].
Qed.

(** The loop of lines 33-40 appends requests of listed objects only; the
    placeholders of lines 34-35 are overwritten before the first append. *)
Lemma zipf_expand_elems objs_c cluster_objects : forall i objs objs',
  zipf_expand objs_c i cluster_objects objs = Ok objs' ->
  forall r,
    r ∈ objs' ->
    r ∈ objs \/ exists obj, obj ∈ cluster_objects /\ r = req_of obj.
Proof.
  induction cluster_objects as [|obj rest IH]; intros i objs objs';
    cbn [zipf_expand].
  - intros [= <-] r Hr. by left.
  - destruct (getitem objs_c _) as [c|]; cbn; [|done].
    pose proof (zipf_emit_run obj (Z.to_nat c) (KInt 0) 0%Z objs) as Hrun.
    destruct (fold_left _ _ _) as [[? ?] objs1]. cbn in Hrun. subst objs1.
    intros Hrec r Hr. apply (IH _ _ _ Hrec) in Hr as [Hr|(o & Ho & ->)].
    + apply elem_of_app in Hr as [Hr|Hr]; [by left|].
      apply elem_of_replicate in Hr as [-> _]. right. exists obj.
      split; [apply list_elem_of_here|done].
    + right. exists o. split; [by apply list_elem_of_further|done].
Qed.

Lemma shuffle_ok_permutes {A} (x x' : list A) g g' :
  shuffle x g = Ok (x', g') -> x' ≡ₚ x.
Proof.
  intros E. destruct (shuffle_permutes x g) as (y & h & E' & Hp).
  rewrite E in E'. by injection E' as -> ->.
Qed.
End SamplerContents.

(** Whatever the mode, the target and the weights, every request the
    sampler returns is the (key, size) of an object of the listing: no
    request carries the placeholder key [0] of line 34, and none is made
    up. *)
Theorem prepare_objs_returns_listed_objects
    zipf_pmf cluster_objects reads_num use_zipf zipf_parm g objs g' :
  prepare_objs zipf_pmf cluster_objects reads_num use_zipf zipf_parm g
  = Ok (objs, g') ->
  forall r, r ∈ objs ->
    exists obj, obj ∈ cluster_objects /\ r = req_of obj
                /\ req_key r = KStr (obj_key obj).
Proof.
  intros E r Hr.
  assert (exists obj, obj ∈ cluster_objects /\ r = req_of obj)
    as (obj & Ho & ->); [|by exists obj].
  unfold prepare_objs in E. destruct use_zipf.
  - destruct (zipf_probabilities _ _ _) as [objs_p|]; cbn in E; [|done].
    destruct (zipf_alloc _ _ _ _) as [[objs_c count]|]; cbn in E; [|done].
    destruct (shuffle objs_c g) as [[objs_c' g1]|]; cbn in E; [|done].
    destruct (zipf_expand _ _ _ _) as [pre|] eqn:Ee; cbn in E; [|done].
    apply shuffle_ok_permutes in E. rewrite E in Hr.
    apply (zipf_expand_elems _ _ _ _ _ Ee) in Hr as [Hr|Hr]; [|done].
    by apply elem_of_nil in Hr.
  - pose proof (uniform_take_elems reads_num cluster_objects [] 0%Z) as Ht.
    cbn zeta in Ht.
    destruct (uniform_take _ _ _ _) as [pre|[pre count]].
    + injection E as <- <-. apply Ht in Hr as [Hr|Hr]; [|done].
      by apply elem_of_nil in Hr.
    + destruct (uniform_cycle _ _ _ _) as [full|] eqn:Ec; cbn in E; [|done].
      apply shuffle_ok_permutes in E. rewrite E in Hr.
      apply (uniform_cycle_elems _ _ _ _ _ Ec) in Hr.
      apply Ht in Hr as [Hr|Hr]; [|done]. by apply elem_of_nil in Hr.
Qed.

Lemma prepare_objs_returns_listed_objects_witness :
  prepare_objs ex_pmf ex_listing 2 false 2 ex_rng
  = Ok (map req_of (take 2 ex_listing), ex_rng)
  /\ forall r, r ∈ map req_of (take 2 ex_listing) ->
       exists obj, obj ∈ ex_listing /\ r = req_of obj
                   /\ req_key r = KStr (obj_key obj).
Proof.
  split; [reflexivity|].
  exact (prepare_objs_returns_listed_objects ex_pmf ex_listing 2 false 2
           ex_rng _ _ eq_refl).
Defined.

Section ZipfProfile.
Variable reads_num : Z.
Hypothesis reads_nonneg : (0 <= reads_num)%Z.

(** The loop of lines 26-29 admits a prefix of the ranks: the first [k]
    ranks get their share, the others get 0, and once the total has
    reached [N] no rank is admitted. *)
Lemma zipf_alloc_profile ps : forall objs_c count,
  Forall (fun p => (0 <= p)%Q) ps ->
  exists k count',
    zipf_alloc reads_num (map Fin ps) objs_c count
    = Ok (objs_c ++ map (zipf_share reads_num) (take k ps)
                 ++ replicate (length ps - k) 0%Z,
          count')
    /\ k <= length ps
    /\ ((reads_num <= count)%Z -> k = 0)
    /\ ((count < reads_num)%Z -> ps ≠ [] -> 1 <= k).
Proof.
  induction ps as [|p ps IH]; intros objs_c count Hps.
  - exists 0, count. cbn. rewrite app_nil_r. split_and!; try done; lia.
  - inversion Hps as [|? ? Hp Hps']; subst.
    assert (Hx : (0 <= p * inject_Z reads_num)%Q).
    { apply Qmult_le_0_compat; [done|].
      change 0%Q with (inject_Z 0). by rewrite <- Zle_Qle. }
    cbn [zipf_alloc map length].
    destruct (Z.ltb_spec count reads_num) as [Hlt|Hge]; cbn.
    + rewrite py_int_nonneg by done. fold (zipf_share reads_num p).
      destruct (IH (objs_c ++ [zipf_share reads_num p])
                  (count + zipf_share reads_num p)%Z Hps')
        as (k & count' & -> & Hk & _ & _).
      exists (S k), count'. rewrite <- app_assoc. cbn.
      split_and!; try done; lia.
    + destruct (IH (objs_c ++ [0%Z]) (count + 0)%Z Hps')
        as (k & count' & -> & Hk & Hzero & _).
      rewrite (Hzero ltac:(lia)). exists 0, count'.
      rewrite <- app_assoc, take_0. cbn. rewrite Nat.sub_0_r.
      split_and!; try done; lia.
Qed.

Lemma share_pos p : (0 <= p)%Q -> (1 <= zipf_share reads_num p)%Z.
Proof.
  intros Hp. unfold zipf_share.
  assert (Hx : (0 <= p * inject_Z reads_num)%Q).
  { apply Qmult_le_0_compat; [done|].
    change 0%Q with (inject_Z 0). by rewrite <- Zle_Qle. }
  pose proof (Qfloor_nonneg _ Hx). lia.
Qed.

Lemma share_mono p q :
  (q <= p)%Q -> (zipf_share reads_num q <= zipf_share reads_num p)%Z.
Proof.
  intros Hqp. unfold zipf_share.
  assert (q * inject_Z reads_num <= p * inject_Z reads_num)%Q as H.
  { apply Qmult_le_compat_r; [done|].
    change 0%Q with (inject_Z 0). by rewrite <- Zle_Qle. }
  pose proof (Qfloor_resp_le _ _ H). lia.
Qed.

(** Shares of non-increasing probabilities, followed by zeros, do not
    increase. *)
Lemma profile_nonincreasing ps k n :
  Forall (fun p => (0 <= p)%Q) ps ->
  nonincreasing_Q ps ->
  nonincreasing_Z (map (zipf_share reads_num) (take k ps) ++ replicate n 0%Z).
Proof.
  intros Hps Hmono i j x y Hij Hx Hy.
  assert (Hlen : length (map (zipf_share reads_num) (take k ps))
                 = length (take k ps))
    by apply length_map.
  assert (Hx0 : (0 <= x)%Z).
  { apply lookup_app_Some in Hx as [Hx|[_ Hx]].
    - apply list_lookup_fmap_Some in Hx as (p & -> & Hp).
      apply lookup_take_Some in Hp as [Hp _].
      pose proof (Forall_lookup_1 _ _ _ _ Hps Hp) as H0.
      pose proof (share_pos p H0). lia.
    - apply lookup_replicate in Hx as [-> _]. lia. }
  apply lookup_app_Some in Hy as [Hy|[Hj Hy]].
  - apply list_lookup_fmap_Some in Hy as (q & -> & Hq).
    pose proof (lookup_lt_Some _ _ _ Hq) as Hjlt.
    rewrite lookup_app_l in Hx by lia.
    apply list_lookup_fmap_Some in Hx as (p & -> & Hp).
    apply lookup_take_Some in Hp as [Hp _].
    apply lookup_take_Some in Hq as [Hq _].
    apply share_mono. exact (Hmono i j p q Hij Hp Hq).
  - apply lookup_replicate in Hy as [-> _]. done.
Qed.
End ZipfProfile.

Section ZipfRanks.
Variable zipf_pmf : Z -> Q -> option Q.
Variables (cluster_objects : list rados_obj) (reads_num : Z).
Variable zipf_parm : Q.

Hypothesis listing_nonempty : cluster_objects ≠ [].
Hypothesis reads_pos : (1 <= reads_num)%Z.
Hypothesis pmf_pos :
  forall i, (1 <= i <= Z.of_nat (length cluster_objects))%Z ->
    exists q, zipf_pmf i zipf_parm = Some q /\ (0 < q)%Q.
Hypothesis pmf_decreases :
  forall i j p q,
    (1 <= i <= j)%Z -> (j <= Z.of_nat (length cluster_objects))%Z ->
    zipf_pmf i zipf_parm = Some p -> zipf_pmf j zipf_parm = Some q ->
    (q <= p)%Q.

(** Line 23 keeps the order of the weights. *)
Lemma zipf_probabilities_nonincreasing :
  exists ps,
    zipf_probabilities zipf_pmf cluster_objects zipf_parm = Ok (map Fin ps)
    /\ length ps = length cluster_objects
    /\ Forall (fun p => (0 <= p)%Q) ps
    /\ nonincreasing_Q ps.
Proof.
  rewrite zipf_probabilities_finite.
  2:{ intros i Hi. destruct (pmf_pos i Hi) as (q & -> & _). done. }
  set (raw := map (fun i => default 0%Q (zipf_pmf (Z.of_nat i) zipf_parm))
                  (seq 1 (length cluster_objects))).
  assert (Hraw : forall i p, raw !! i = Some p ->
            zipf_pmf (Z.of_nat (S i)) zipf_parm = Some p
            /\ (0 < p)%Q
            /\ i < length cluster_objects).
  { subst raw. intros i p Hp.
    apply list_lookup_fmap_Some in Hp as (n & -> & Hn).
    apply lookup_seq in Hn as [-> Hn]. cbn [Nat.add].
    destruct (pmf_pos (Z.of_nat (S i)) ltac:(lia)) as (q & -> & Hq). done. }
  assert (Hpos : Forall (fun p => (0 < p)%Q) raw).
  { apply Forall_lookup. intros i p Hp. by apply Hraw in Hp as (_ & Hp & _). }
  assert (Hne : raw ≠ []).
  { subst raw. by destruct cluster_objects. }
  assert (Hlen : length raw = length cluster_objects).
  { subst raw. by rewrite length_map, length_seq. }
  clearbody raw.
  pose proof (Qsum_pos raw Hne Hpos) as Hs.
  rewrite <- py_sum_Qsum in Hs.
  assert (Hs0 : ~ (py_sum raw == 0)%Q) by lra.
  exists (map (fun p => (p / py_sum raw)%Q) raw).
  split_and!.
  - destruct raw as [|p0 raw'] eqn:E; [done|]. rewrite <- E in Hs0 |- *.
    f_equal. rewrite map_map. apply map_ext. intros p.
    unfold np_div. by rewrite Qeq_bool_false.
  - by rewrite length_map.
  - apply Forall_fmap. eapply Forall_impl; [exact Hpos|].
    intros p Hp. unfold compose. cbn beta in Hp |- *.
    apply Qle_shift_div_l; lra.
  - intros i j x y Hij Hx Hy.
    apply list_lookup_fmap_Some in Hx as (p & -> & Hp).
    apply list_lookup_fmap_Some in Hy as (q & -> & Hq).
    apply Hraw in Hp as (Ep & _ & Hi). apply Hraw in Hq as (Eq & _ & Hj).
    unfold Qdiv. apply Qmult_le_compat_r.
    + apply (pmf_decreases (Z.of_nat (S i)) (Z.of_nat (S j))); [lia|lia|done|done].
    + apply Qlt_le_weak, Qinv_lt_0_compat. exact Hs.
Qed.

(** When the weights are positive and do not increase with the rank, as
    Zipf weights do, the allocation of lines 25-29 is a demand profile:
    the first k >= 1 ranks get at least one read each, the ranks after
    them get none, and the counts do not increase with the rank. *)
Theorem zipf_allocation_is_a_demand_profile :
  exists objs_p objs_c count k,
    zipf_probabilities zipf_pmf cluster_objects zipf_parm = Ok objs_p
    /\ zipf_alloc reads_num objs_p [] 0%Z = Ok (objs_c, count)
    /\ length objs_c = length cluster_objects
    /\ 1 <= k <= length cluster_objects
    /\ (forall i c, objs_c !! i = Some c ->
          (i < k -> (1 <= c)%Z) /\ (k <= i -> c = 0%Z))
    /\ nonincreasing_Z objs_c.
Proof.
  destruct zipf_probabilities_nonincreasing as (ps & Ep & Hlen & Hps & Hmono).
  destruct (zipf_alloc_profile reads_num ltac:(lia) ps [] 0%Z Hps)
    as (k & count & Ea & Hk & _ & Hk1).
  cbn [app] in Ea.
  assert (Hne : ps ≠ []).
  { destruct ps; [|done]. destruct cluster_objects; done. }
  specialize (Hk1 ltac:(lia) Hne).
  eexists _, _, count, k. split; [exact Ep|]. split; [exact Ea|].
  split_and!.
  - rewrite length_app, length_map, length_take, length_replicate. lia.
  - lia.
  - lia.
  - intros i c Hc. apply lookup_app_Some in Hc as [Hc|[Hi Hc]].
    + apply list_lookup_fmap_Some in Hc as (p & -> & Hp).
      apply lookup_take_Some in Hp as [Hp Hik]. split; [|lia].
      intros _. apply share_pos; [lia|].
      exact (Forall_lookup_1 _ _ _ _ Hps Hp).
    + apply lookup_replicate in Hc as [-> _].
      rewrite length_map, length_take in Hi. split; [lia|done].
  - apply profile_nonincreasing; [lia|done|done].
Qed.
End ZipfRanks.

Lemma ex_pmf_decreases i j p q :
  (1 <= i <= j)%Z -> ex_pmf i 2 = Some p -> ex_pmf j 2 = Some q -> (q <= p)%Q.
Proof.
  intros H [= <-] [= <-]. unfold Qle. cbn [Qnum Qden].
  rewrite !Z.mul_1_l, !Z2Pos.id by nia. nia.
Qed.

Lemma zipf_allocation_is_a_demand_profile_witness :
  ex_listing ≠ []
  /\ (1 <= 10)%Z
  /\ (forall i, (1 <= i <= Z.of_nat (length ex_listing))%Z ->
        exists q, ex_pmf i 2 = Some q /\ (0 < q)%Q)
  /\ (forall i j p q,
        (1 <= i <= j)%Z -> (j <= Z.of_nat (length ex_listing))%Z ->
        ex_pmf i 2 = Some p -> ex_pmf j 2 = Some q -> (q <= p)%Q)
  /\ exists objs_p objs_c count k,
       zipf_probabilities ex_pmf ex_listing 2 = Ok objs_p
       /\ zipf_alloc 10 objs_p [] 0%Z = Ok (objs_c, count)
       /\ length objs_c = length ex_listing
       /\ 1 <= k <= length ex_listing
       /\ (forall i c, objs_c !! i = Some c ->
             (i < k -> (1 <= c)%Z) /\ (k <= i -> c = 0%Z))
       /\ nonincreasing_Z objs_c.
Proof.
  split; [done|]. split; [lia|]. split; [intros i _; apply ex_pmf_pos|].
  split; [intros i j p q Hij _; by apply ex_pmf_decreases|].
  apply (zipf_allocation_is_a_demand_profile ex_pmf ex_listing 10 2).
  - done.
  - lia.
  - intros i _. apply ex_pmf_pos.
  - intros i j p q Hij _. by apply ex_pmf_decreases.
Defined.

(** * More on the aggregator *)

Section SampleCounts.

Lemma collect_loop_ok_durations res c c' :
  collect_loop res c = Ok c' ->
  Forall (fun r => s_finish r = true -> ~ (s_end r == s_start r)%Q) res.
Proof.
  intros E. apply Forall_forall. intros r Hin Hf He.
  by rewrite (collect_loop_zero_duration res c r Hin Hf He) in E.
Qed.

Lemma Zsum_insert (l : list Z) i a b :
  l !! i = Some a -> Zsum (<[i := b]> l) = (Zsum l - a + b)%Z.
Proof.
  revert i. induction l as [|x l IH]; intros [|i] H; simpl in *; try done.
  - injection H as ->. lia.
  - rewrite (IH i H). lia.
Qed.

Lemma Zsum_replicate_zero n : Zsum (replicate n 0%Z) = 0%Z.
Proof. induction n; cbn; lia. Qed.

Lemma alteritem_ok {A} (f : A -> A) l k l' :
  alteritem f l k = Ok l' ->
  exists i a, l !! i = Some a /\ l' = <[i := f a]> l.
Proof.
  unfold alteritem. destruct (_ && _); [|done].
  destruct (l !! _) as [a|] eqn:E; [|done]. intros [= <-]. eauto.
Qed.

(** Each pass of the loop of lines 110-111 adds one to one bucket, also
    when a negative subscript wraps around. *)
Lemma count_iops_sum base ends : forall iops iops',
  count_iops base ends iops = Ok iops' ->
  Zsum iops' = (Zsum iops + Z.of_nat (length ends))%Z
  /\ length iops' = length iops.
Proof.
  induction ends as [|e ends IH]; intros iops iops'; cbn [count_iops].
  - intros [= <-]. cbn. split; [lia|done].
  - destruct (alteritem _ _ _) as [iops1|] eqn:E; cbn; [|done].
    intros Hrec. apply IH in Hrec as [Hs Hl].
    apply alteritem_ok in E as (i & a & Ha & ->).
    rewrite (Zsum_insert _ _ _ _ Ha) in Hs. rewrite length_insert in Hl.
    cbn [length]. split; [lia|done].
Qed.
End SampleCounts.

(** Whenever the aggregator gets as far as [print_statistics] with at
    least one completed slot, it hands over one bandwidth and one latency
    per completed slot, in slot order, and the IOPS buckets add up to
    the number of completed slots: every completion is counted in exactly
    one bucket. *)
Theorem iops_buckets_sum_to_completed_count res bw iops lat_ :
  collect_statistics res = Ok (bw, iops, lat_) ->
  completed res ≠ [] ->
  bw = map bandwidth (completed res)
  /\ lat_ = map duration (completed res)
  /\ Zsum iops = Z.of_nat (length (completed res)).
Proof.
  intros E Hne. unfold collect_statistics in E.
  destruct (collect_loop res collected_init) as [c|] eqn:Eloop; cbn in E;
    [|done].
  pose proof (collect_loop_ok_durations _ _ _ Eloop) as Hdur.
  destruct (collect_loop_lists res collected_init Hdur)
    as (c' & Eloop' & Hend & Hbw & Hlat).
  rewrite Eloop in Eloop'. injection Eloop' as <-.
  cbn [collected_init end_ bw_mbs lat app] in Hend, Hbw, Hlat.
  rewrite Hbw, length_map in E.
  destruct (completed res) as [|r0 rest] eqn:Ec; [done|].
  cbn [length Nat.eqb] in E.
  destruct (py_max _ _) as [m|]; cbn in E; [|done].
  destruct (count_iops _ _ _) as [iops1|] eqn:Ecount; cbn in E; [|done].
  injection E as <- <- <-.
  apply count_iops_sum in Ecount as [Hsum _].
  rewrite Zsum_replicate_zero, Hend, length_map in Hsum.
  rewrite Hlat. split_and!; [done|done|]. cbn [length] in *. lia.
Qed.

Lemma iops_buckets_sum_to_completed_count_witness :
  exists bw iops lat_,
    collect_statistics two_reads = Ok (bw, iops, lat_)
    /\ completed two_reads ≠ []
    /\ bw = map bandwidth (completed two_reads)
    /\ lat_ = map duration (completed two_reads)
    /\ Zsum iops = Z.of_nat (length (completed two_reads)).
Proof.
  destruct (collect_statistics two_reads) as [[[bw iops] lat_]|] eqn:E;
    [|discriminate].
  exists bw, iops, lat_. split; [reflexivity|]. split; [discriminate|].
  exact (iops_buckets_sum_to_completed_count two_reads bw iops lat_ E
           ltac:(discriminate)).
Defined.

(** The aggregator raises nothing but the [ZeroDivisionError] of line
    100, which it raises exactly when a completed slot ends when it
    started, and the [IndexError] of line 111; [min], [max] and the
    averages of [print_statistics] never fail after it. *)
Theorem aggregator_raises_only_division_or_index res e :
  collect_and_print_statistics res = Raise e ->
  (e = ZeroDivisionError
   /\ exists r, r ∈ res /\ s_finish r = true /\ (s_end r == s_start r)%Q)
  \/ (e = IndexError
      /\ Forall (fun r => s_finish r = true -> ~ (s_end r == s_start r)%Q)
                res).
Proof.
  unfold collect_and_print_statistics, collect_statistics.
  destruct (collect_loop res collected_init) as [c|e'] eqn:Eloop; cbn.
  - pose proof (collect_loop_ok_durations _ _ _ Eloop) as Hdur.
    destruct (collect_loop_lists res collected_init Hdur)
      as (c' & Eloop' & Hend & Hbw & Hlat).
    rewrite Eloop in Eloop'. injection Eloop' as <-.
    cbn [collected_init end_ bw_mbs lat app] in Hend, Hbw, Hlat.
    rewrite Hbw, Hlat, Hend, length_map.
    destruct (completed res) as [|r0 rest] eqn:Ec; cbn [length Nat.eqb map].
    + cbn. discriminate.
    + cbn [py_max mbind result_bind].
      destruct (count_iops _ _ _) as [iops|e1] eqn:Ecount;
        cbn [mbind result_bind].
      * apply count_iops_sum in Ecount as [Hsum _].
        rewrite Zsum_replicate_zero in Hsum. cbn [length] in Hsum.
        destruct iops as [|i iops]; [cbn in Hsum; lia|].
        unfold print_statistics, py_div. cbn [py_min py_max mbind result_bind].
        rewrite !len_Q_nonzero. cbn. discriminate.
      * intros [= <-]. apply count_iops_raises in Ecount as ->.
        right. by split.
  - intros [= <-]. left.
    assert (e' = ZeroDivisionError) as -> by (by eapply collect_loop_raises).
    split; [done|].
    clear -Eloop. revert Eloop. generalize collected_init.
    induction res as [|r res IH]; intros c; cbn; [done|].
    destruct (collect_one c r) as [c1|e1] eqn:E1; cbn.
    + intros Hrec. destruct (IH _ Hrec) as (r' & Hin & Hf & He).
      exists r'. split; [by apply list_elem_of_further|done].
    + intros _. apply collect_one_raises in E1 as (_ & Hf & He).
      exists r. split; [apply list_elem_of_here|done].
Qed.

Lemma aggregator_raises_only_division_or_index_witness :
  collect_and_print_statistics epoch_start_reads = Raise IndexError
  /\ ((IndexError = ZeroDivisionError
       /\ exists r, r ∈ epoch_start_reads /\ s_finish r = true
                    /\ (s_end r == s_start r)%Q)
      \/ (IndexError = IndexError
          /\ Forall (fun r => s_finish r = true ->
                              ~ (s_end r == s_start r)%Q)
                    epoch_start_reads)).
Proof.
  split; [reflexivity|].
  exact (aggregator_raises_only_division_or_index epoch_start_reads
           IndexError eq_refl).
Defined.

(** * [print_statistics] *)

Section MinMaxFacts.
Context {A : Type} (le : A -> A -> Prop) (ltb : A -> A -> bool).
Hypothesis le_refl : forall x, le x x.
Hypothesis le_trans : forall x y z, le x y -> le y z -> le x z.
Hypothesis ltb_true : forall x y, ltb x y = true -> le x y.
Hypothesis ltb_false : forall x y, ltb x y = false -> le y x.

Lemma fold_min_bounds l : forall x,
  let m := fold_left (fun m y => if ltb y m then y else m) l x in
  m ∈ x :: l /\ forall y, y ∈ x :: l -> le m y.
Proof.
  induction l as [|z l IH]; intros x; cbn.
  - split; [apply list_elem_of_here|].
    intros y ->%list_elem_of_singleton. apply le_refl.
  - destruct (IH (if ltb z x then z else x)) as [Hin Hmin].
    cbn in Hin, Hmin. split.
    + apply elem_of_cons in Hin as [->|Hin].
      * destruct (ltb z x); [|apply list_elem_of_here].
        apply list_elem_of_further, list_elem_of_here.
      * by do 2 apply list_elem_of_further.
    + pose proof (Hmin _ (list_elem_of_here _ _)) as H0.
      assert (Hstep : le (if ltb z x then z else x) x
                      /\ le (if ltb z x then z else x) z).
      { destruct (ltb z x) eqn:E; split; auto. }
      destruct Hstep as [Hx Hz].
      intros y [->|Hy]%elem_of_cons; [by eapply le_trans|].
      apply elem_of_cons in Hy as [->|Hy]; [by eapply le_trans|].
      apply Hmin. by apply list_elem_of_further.
Qed.

Lemma fold_max_bounds l : forall x,
  let m := fold_left (fun m y => if ltb m y then y else m) l x in
  m ∈ x :: l /\ forall y, y ∈ x :: l -> le y m.
Proof.
  induction l as [|z l IH]; intros x; cbn.
  - split; [apply list_elem_of_here|].
    intros y ->%list_elem_of_singleton. apply le_refl.
  - destruct (IH (if ltb x z then z else x)) as [Hin Hmax].
    cbn in Hin, Hmax. split.
    + apply elem_of_cons in Hin as [->|Hin].
      * destruct (ltb x z); [|apply list_elem_of_here].
        apply list_elem_of_further, list_elem_of_here.
      * by do 2 apply list_elem_of_further.
    + pose proof (Hmax _ (list_elem_of_here _ _)) as H0.
      assert (Hstep : le x (if ltb x z then z else x)
                      /\ le z (if ltb x z then z else x)).
      { destruct (ltb x z) eqn:E; split; auto. }
      destruct Hstep as [Hx Hz].
      intros y [->|Hy]%elem_of_cons; [by eapply le_trans|].
      apply elem_of_cons in Hy as [->|Hy]; [by eapply le_trans|].
      apply Hmax. by apply list_elem_of_further.
Qed.

Lemma py_min_bounds l :
  l ≠ [] ->
  exists m, py_min ltb l = Ok m /\ m ∈ l /\ forall y, y ∈ l -> le m y.
Proof.
  destruct l as [|x l]; [done|]. intros _. eexists. split; [done|].
  apply fold_min_bounds.
Qed.

Lemma py_max_bounds l :
  l ≠ [] ->
  exists m, py_max ltb l = Ok m /\ m ∈ l /\ forall y, y ∈ l -> le y m.
Proof.
  destruct l as [|x l]; [done|]. intros _. eexists. split; [done|].
  apply fold_max_bounds.
Qed.
End MinMaxFacts.

Section Averages.
Local Open Scope Q_scope.

Lemma Qsum_bounds (l : list Q) lo hi :
  (forall y, y ∈ l -> lo <= y) -> (forall y, y ∈ l -> y <= hi) ->
  lo * len_Q l <= Qsum l /\ Qsum l <= hi * len_Q l.
Proof.
  unfold len_Q. induction l as [|x l IH]; intros Hlo Hhi; cbn [length Qsum].
  - change (inject_Z (Z.of_nat 0)) with 0. split; lra.
  - rewrite Nat2Z.inj_succ, <- Z.add_1_r, inject_Z_plus.
    change (inject_Z 1) with 1.
    destruct IH as [IH1 IH2].
    { intros y Hy. apply Hlo. by apply list_elem_of_further. }
    { intros y Hy. apply Hhi. by apply list_elem_of_further. }
    pose proof (Hlo x (list_elem_of_here _ _)).
    pose proof (Hhi x (list_elem_of_here _ _)).
    split; lra.
Qed.

Lemma len_Q_pos {A} (x : A) l : 0 < len_Q (x :: l).
Proof.
  unfold len_Q. cbn [length]. change 0 with (inject_Z 0).
  rewrite <- Zlt_Qlt. lia.
Qed.

Lemma fold_left_Zplus l a : fold_left Z.add l a = (a + Zsum l)%Z.
Proof.
  revert a. induction l as [|x l IH]; intros a; cbn; [lia|].
  rewrite IH. lia.
Qed.

Lemma Qsum_inject_Z l : Qsum (map inject_Z l) == inject_Z (Zsum l).
Proof.
  induction l as [|x l IH]; cbn; [reflexivity|].
  by rewrite IH, inject_Z_plus.
Qed.
End Averages.

Section ReportFacts.

Lemma Qlt_bool_true_le x y : Qlt_bool x y = true -> (x <= y)%Q.
Proof. intros H. apply Qlt_bool_iff in H. by apply Qlt_le_weak. Qed.

Lemma Zltb_true_le x y : (x <? y)%Z = true -> (x <= y)%Z.
Proof. intros H. apply Z.ltb_lt in H. lia. Qed.

Lemma Zltb_false_le x y : (x <? y)%Z = false -> (y <= x)%Z.
Proof. intros H. apply Z.ltb_ge in H. lia. Qed.

Lemma average_bounds_Z (l : list Z) lo hi :
  l ≠ [] ->
  (forall y, y ∈ l -> (lo <= y)%Z) -> (forall y, y ∈ l -> (y <= hi)%Z) ->
  exists avg,
    py_div (inject_Z (fold_left Z.add l 0%Z)) (len_Q l) = Ok avg
    /\ (inject_Z lo <= avg <= inject_Z hi)%Q.
Proof.
  intros Hne Hlo Hhi. destruct l as [|x l]; [done|].
  pose proof (len_Q_pos x l) as Hpos.
  destruct (Qsum_bounds (map inject_Z (x :: l)) (inject_Z lo) (inject_Z hi))
    as [H1 H2].
  { intros y (z & -> & Hz)%list_elem_of_fmap. rewrite <- Zle_Qle. auto. }
  { intros y (z & -> & Hz)%list_elem_of_fmap. rewrite <- Zle_Qle. auto. }
  assert (Hlen : len_Q (map inject_Z (x :: l)) = len_Q (x :: l)).
  { unfold len_Q. by rewrite length_map. }
  rewrite Hlen, Qsum_inject_Z in H1, H2.
  unfold py_div. rewrite len_Q_nonzero. eexists. split; [reflexivity|].
  rewrite fold_left_Zplus, Z.add_0_l. split.
  - by apply Qle_shift_div_l.
  - by apply Qle_shift_div_r.
Qed.
End ReportFacts.

(** [print_statistics] reports, for three non-empty lists, a minimum and
    a maximum that are entries of the list and bound every entry of it;
    the average of the IOPS counts, an integer sum divided by their
    number, lies between their minimum and their maximum.  It raises
    [ValueError] (from [min]) as soon as one of the lists is empty, and
    never divides by zero. *)
Theorem print_statistics_reports_extremes bw iops lat_ :
  (bw ≠ [] -> iops ≠ [] -> lat_ ≠ [] ->
   exists s,
     print_statistics bw iops lat_ = Ok s
     /\ min_bw s ∈ bw /\ max_bw s ∈ bw
     /\ (forall x, x ∈ bw -> (min_bw s <= x <= max_bw s)%Q)
     /\ min_iops s ∈ iops /\ max_iops s ∈ iops
     /\ (forall x, x ∈ iops -> (min_iops s <= x <= max_iops s)%Z)
     /\ (inject_Z (min_iops s) <= avg_iops s <= inject_Z (max_iops s))%Q
     /\ min_lat s ∈ lat_ /\ max_lat s ∈ lat_
     /\ (forall x, x ∈ lat_ -> (min_lat s <= x <= max_lat s)%Q))
  /\ (bw = [] \/ iops = [] \/ lat_ = [] ->
      print_statistics bw iops lat_ = Raise ValueError).
Proof.
  split.
  - intros Hbw Hiops Hlat. unfold print_statistics.
    destruct (py_min_bounds Qle Qlt_bool Qle_refl Qle_trans
                Qlt_bool_true_le Qlt_bool_false bw Hbw)
      as (bmin & -> & Hbmin_in & Hbmin).
    destruct (py_max_bounds Qle Qlt_bool Qle_refl Qle_trans
                Qlt_bool_true_le Qlt_bool_false bw Hbw)
      as (bmax & -> & Hbmax_in & Hbmax).
    assert (Hbavg : exists avg,
              py_div (py_sum bw) (len_Q bw) = Ok avg).
    { destruct bw as [|b bw]; [done|]. unfold py_div.
      rewrite len_Q_nonzero. by eexists. }
    destruct Hbavg as (bavg & ->).
    destruct (py_min_bounds Z.le Z.ltb Z.le_refl Z.le_trans
                Zltb_true_le Zltb_false_le iops Hiops)
      as (imin & -> & Himin_in & Himin).
    destruct (py_max_bounds Z.le Z.ltb Z.le_refl Z.le_trans
                Zltb_true_le Zltb_false_le iops Hiops)
      as (imax & -> & Himax_in & Himax).
    destruct (average_bounds_Z iops imin imax Hiops Himin Himax)
      as (iavg & -> & Hiavg).
    destruct (py_min_bounds Qle Qlt_bool Qle_refl Qle_trans
                Qlt_bool_true_le Qlt_bool_false lat_ Hlat)
      as (lmin & -> & Hlmin_in & Hlmin).
    destruct (py_max_bounds Qle Qlt_bool Qle_refl Qle_trans
                Qlt_bool_true_le Qlt_bool_false lat_ Hlat)
      as (lmax & -> & Hlmax_in & Hlmax).
    assert (Hlavg : exists avg,
              py_div (py_sum lat_) (len_Q lat_) = Ok avg).
    { destruct lat_ as [|l lat_]; [done|]. unfold py_div.
      rewrite len_Q_nonzero. by eexists. }
    destruct Hlavg as (lavg & ->).
    cbn [mbind result_bind]. eexists. split; [reflexivity|].
    cbn [min_bw max_bw avg_bw min_iops max_iops avg_iops
         min_lat max_lat avg_lat].
    destruct Hiavg. split_and!; try assumption.
    + intros x Hx. split; [by apply Hbmin|by apply Hbmax].
    + intros x Hx. split; [by apply Himin|by apply Himax].
    + intros x Hx. split; [by apply Hlmin|by apply Hlmax].
  - unfold print_statistics, py_div. intros [H|[H|H]]; subst; [done| |].
    + destruct bw as [|b bw]; [done|]. by rewrite len_Q_nonzero.
    + destruct bw as [|b bw]; [done|]. rewrite len_Q_nonzero.
      destruct iops as [|i iops]; [done|]. by rewrite len_Q_nonzero.
Qed.

Lemma print_statistics_reports_extremes_witness :
  [(1 # 2); (3 # 4)]%Q ≠ []
  /\ [2; 0; 1]%Z ≠ []
  /\ [(1 # 10); (1 # 5)]%Q ≠ []
  /\ exists s,
       print_statistics [(1 # 2); (3 # 4)]%Q [2; 0; 1]%Z
                        [(1 # 10); (1 # 5)]%Q = Ok s
       /\ min_bw s ∈ [(1 # 2); (3 # 4)]%Q
       /\ max_bw s ∈ [(1 # 2); (3 # 4)]%Q
       /\ (forall x, x ∈ [(1 # 2); (3 # 4)]%Q ->
             (min_bw s <= x <= max_bw s)%Q)
       /\ min_iops s ∈ [2; 0; 1]%Z /\ max_iops s ∈ [2; 0; 1]%Z
       /\ (forall x, x ∈ [2; 0; 1]%Z -> (min_iops s <= x <= max_iops s)%Z)
       /\ (inject_Z (min_iops s) <= avg_iops s <= inject_Z (max_iops s))%Q
       /\ min_lat s ∈ [(1 # 10); (1 # 5)]%Q
       /\ max_lat s ∈ [(1 # 10); (1 # 5)]%Q
       /\ (forall x, x ∈ [(1 # 10); (1 # 5)]%Q ->
             (min_lat s <= x <= max_lat s)%Q).
Proof.
  split; [discriminate|]. split; [discriminate|]. split; [discriminate|].
  apply (proj1 (print_statistics_reports_extremes
                  [(1 # 2); (3 # 4)]%Q [2; 0; 1]%Z [(1 # 10); (1 # 5)]%Q));
    discriminate.
Defined.

(** * More on the dispatcher *)

(** A read that is issued at [t0] and whose callback receives [bytes] at
    [t1] leaves in its slot exactly the two stamps, the number of bytes
    and [finish = True], whatever the slot held before, and touches no
    other slot; a [tid] outside the table makes both halves raise
    [IndexError] and leaves the table as it was. *)
Theorem read_round_trip tid read_res obj t0 t1 bytes :
  (tid < length read_res ->
   exists issued completion done,
     obj_aio_read tid read_res obj t0 = Ok (issued, completion)
     /\ completion = {| a_tid := tid; a_key := req_key obj;
                        a_len := req_len obj; a_offset := 0 |}
     /\ aio_read_complete tid t1 (Some bytes) issued = (done, Ok tt)
     /\ done !! tid
        = Some {| s_start := t0; s_end := t1;
                  s_len := Z.of_nat (length bytes); s_finish := true |}
     /\ length done = length read_res
     /\ forall j, j <> tid -> done !! j = read_res !! j)
  /\ (length read_res <= tid ->
      obj_aio_read tid read_res obj t0 = Raise IndexError
      /\ aio_read_complete tid t1 (Some bytes) read_res
         = (read_res, Raise IndexError)).
Proof.
  split.
  - intros Hlt. destruct (lookup_lt_is_Some_2 _ _ Hlt) as [r Hr].
    set (r1 := set_start t0 r).
    set (r2 := set_end t1 r1).
    set (r3 := set_len (Z.of_nat (length bytes)) r2).
    exists (<[tid := r1]> read_res), 
      {| a_tid := tid; a_key := req_key obj; a_len := req_len obj;
         a_offset := 0 |},
      (<[tid := set_finish true r3]> read_res).
    split_and!.
    + unfold obj_aio_read, update_slot. by rewrite Hr.
    + done.
    + unfold aio_read_complete, update_slot.
      rewrite list_lookup_insert_eq by done. fold r2.
      rewrite list_insert_insert_eq.
      rewrite list_lookup_insert_eq by done. fold r3.
      rewrite list_insert_insert_eq.
      rewrite list_lookup_insert_eq by done.
      by rewrite list_insert_insert_eq.
    + by rewrite list_lookup_insert_eq.
    + by rewrite length_insert.
    + intros j Hj. by rewrite list_lookup_insert_ne.
  - intros Hge. apply lookup_ge_None in Hge.
    unfold obj_aio_read, aio_read_complete, update_slot. by rewrite Hge.
Qed.

Lemma read_round_trip_witness :
  0 < length stamped_slots
  /\ exists issued completion done,
       obj_aio_read 0 stamped_slots
         {| req_key := KStr "obj_a"; req_len := 10 |} 7
       = Ok (issued, completion)
       /\ completion
          = {| a_tid := 0;
               a_key := req_key {| req_key := KStr "obj_a"; req_len := 10 |};
               a_len := req_len {| req_key := KStr "obj_a"; req_len := 10 |};
               a_offset := 0 |}
       /\ aio_read_complete 0 9 (Some [Byte.x00]) issued = (done, Ok tt)
       /\ done !! 0
          = Some {| s_start := 7; s_end := 9;
                    s_len := Z.of_nat (length [Byte.x00]);
                    s_finish := true |}
       /\ length done = length stamped_slots
       /\ forall j, j <> 0 -> done !! j = stamped_slots !! j.
Proof.
  assert (H : 0 < length stamped_slots) by (cbn; lia).
  split; [exact H|].
  exact (proj1 (read_round_trip 0 stamped_slots
                  {| req_key := KStr "obj_a"; req_len := 10 |}
                  7 9 [Byte.x00]) H).
Defined.

Section MiddleSlot.
Implicit Types (before after : list slot) (x : slot).

Lemma update_slot_middle f before x after :
  update_slot f (length before) (before ++ x :: after)
  = Ok (before ++ f x :: after).
Proof.
  unfold update_slot. rewrite list_lookup_middle by done.
  replace (length before) with (length before + 0) at 1 by lia.
  by rewrite insert_app_r.
Qed.

Lemma obj_aio_read_middle before x after obj now :
  obj_aio_read (length before) (before ++ x :: after) obj now
  = Ok (before ++ set_start now x :: after,
        {| a_tid := length before; a_key := req_key obj;
           a_len := req_len obj; a_offset := 0 |}).
Proof. unfold obj_aio_read. by rewrite update_slot_middle. Qed.

Lemma aio_read_complete_middle before after r :
  fst (aio_read_complete (length before) (t_done r) (t_data r)
         (before ++ set_start (t_issue r) default_slot :: after))
  = before ++ slot_of_read r :: after.
Proof.
  unfold aio_read_complete, slot_of_read.
  rewrite update_slot_middle. destruct (t_data r) as [bytes|]; [|done].
  by rewrite !update_slot_middle.
Qed.
End MiddleSlot.

Section SequentialRun.
Variables (threads_num reads_num : Z) (objs : list read_req).
Hypothesis one_thread : (1 <= threads_num)%Z.

(** One round of the sequential schedule, from a state in which nothing
    is queued, running or in flight. *)
Lemma one_read_step (served : list slot) (n : nat) r (obj : read_req) :
  Z.to_nat reads_num = length served + S n ->
  objs !! length served = Some obj ->
  bench_run threads_num reads_num objs (one_read r)
    {| b_next := length served; b_queue := []; b_running := [];
       b_inflight := [];
       b_read_res := served ++ replicate (S n) default_slot |}
  = Some (Ok {| b_next := S (length served); b_queue := [];
                b_running := []; b_inflight := [];
                b_read_res :=
                  (served ++ [slot_of_read r]) ++ replicate n default_slot |}).
Proof.
  intros HN Hobj. unfold one_read.
  cbn [bench_run bench_step b_next b_queue b_running b_inflight b_read_res].
  destruct (Nat.ltb_spec (length served) (Z.to_nat reads_num)); [|lia].
  rewrite (getitem_lookup objs (Z.of_nat (length served)) obj)
    by (rewrite ?Nat2Z.id; done || lia).
  cbn [mbind result_bind app length
       b_next b_queue b_running b_inflight b_read_res].
  destruct (Z.ltb_spec (Z.of_nat 0) threads_num); [|lia].
  cbn [lookup list_lookup app replicate b_next b_queue b_running b_inflight
       b_read_res].
  rewrite obj_aio_read_middle.
  cbn [mbind result_bind lookup list_lookup delete list_delete app
       b_next b_queue b_running b_inflight b_read_res a_tid].
  pose proof (aio_read_complete_middle served (replicate n default_slot) r)
    as Hdone.
  destruct (aio_read_complete _ _ _ _) as [read_res out]. cbn in Hdone.
  subst read_res. by rewrite <- app_assoc.
Qed.

(** The sequential schedule serves every request and leaves in slot [i]
    what read [i] did. *)
Lemma sequential_run reads : forall served,
  Z.to_nat reads_num = length served + length reads ->
  (reads_num <= Z.of_nat (length objs))%Z ->
  bench_run threads_num reads_num objs (sequential_schedule reads)
    {| b_next := length served; b_queue := []; b_running := [];
       b_inflight := [];
       b_read_res := served ++ replicate (length reads) default_slot |}
  = Some (Ok {| b_next := Z.to_nat reads_num; b_queue := [];
                b_running := []; b_inflight := [];
                b_read_res := served ++ map slot_of_read reads |}).
Proof.
  induction reads as [|r reads IH]; intros served HN Hobjs.
  - cbn in *. rewrite Nat.add_0_r in HN. by rewrite HN.
  - unfold sequential_schedule. cbn [map concat length].
    destruct (lookup_lt_is_Some_2 objs (length served)) as [obj Hobj];
      [cbn in HN; lia|].
    assert (Hsplit : forall evs1 evs2 s s1,
      bench_run threads_num reads_num objs evs1 s = Some (Ok s1) ->
      bench_run threads_num reads_num objs (evs1 ++ evs2) s
      = bench_run threads_num reads_num objs evs2 s1).
    { induction evs1 as [|e evs1 IHe]; intros evs2 s s1; cbn [bench_run app].
      - by intros [= <-].
      - destruct (bench_step _ _ _ s e) as [[s2|]|]; [|done|done].
        apply IHe. }
    rewrite (Hsplit _ _ _ _ (one_read_step served (length reads) r obj
                               HN Hobj)).
    fold (sequential_schedule reads).
    specialize (IH (served ++ [slot_of_read r])).
    rewrite length_app in IH. cbn [length] in IH, HN.
    replace (length served + 1) with (S (length served)) in IH by lia.
    rewrite IH by (done || lia). by rewrite <- app_assoc.
Qed.
End SequentialRun.

(** Served one request after the other by a pool of at least one thread,
    a run of N requests ends with nothing queued, running or in flight,
    and its table of results holds, slot by slot, the stamps and the byte
    count of each read: [finish] is set exactly for the reads whose
    callback received data. *)
Theorem sequential_schedule_fills_every_slot
    threads_num reads_num objs reads :
  (1 <= threads_num)%Z ->
  (0 <= reads_num <= Z.of_nat (length objs))%Z ->
  Z.of_nat (length reads) = reads_num ->
  exists s,
    bench_run threads_num reads_num objs (sequential_schedule reads)
      (bench_init reads_num) = Some (Ok s)
    /\ bench_finished reads_num s = true
    /\ b_read_res s = map slot_of_read reads.
Proof.
  intros HW HN Hlen.
  pose proof (sequential_run threads_num reads_num objs HW reads []) as Hrun.
  cbn [length app] in Hrun.
  assert (HNat : Z.to_nat reads_num = length reads) by lia.
  eexists. split; [|split].
  - unfold bench_init. rewrite HNat. apply Hrun; lia.
  - unfold bench_finished. cbn. by rewrite Nat.eqb_refl.
  - reflexivity.
Qed.

Lemma sequential_schedule_fills_every_slot_witness :
  (1 <= 2)%Z
  /\ (0 <= 3 <= Z.of_nat (length three_requests))%Z
  /\ Z.of_nat (length three_reads) = 3%Z
  /\ exists s,
       bench_run 2 3 three_requests (sequential_schedule three_reads)
         (bench_init 3) = Some (Ok s)
       /\ bench_finished 3 s = true
       /\ b_read_res s = map slot_of_read three_reads.
Proof.
  split; [lia|]. split; [cbn; lia|]. split; [reflexivity|].
  apply (sequential_schedule_fills_every_slot 2 3 three_requests three_reads).
  - lia.
  - cbn; lia.
  - reflexivity.
Defined.

Section Barrier.
Variables (threads_num reads_num : Z) (objs : list read_req).

Lemma update_slot_keeps_finished f tid read_res read_res' j :
  (forall r, s_finish r = true -> s_finish (f r) = true) ->
  update_slot f tid read_res = Ok read_res' ->
  (exists r, read_res !! j = Some r /\ s_finish r = true) ->
  exists r, read_res' !! j = Some r /\ s_finish r = true.
Proof.
  intros Hf. unfold update_slot.
  destruct (read_res !! tid) as [r0|] eqn:E0; [|done].
  intros [= <-] (r & Hr & Hfin).
  destruct (decide (j = tid)) as [->|Hne].
  - exists (f r0). rewrite list_lookup_insert_eq
      by (by eapply lookup_lt_Some).
    split; [done|]. apply Hf. congruence.
  - exists r. by rewrite list_lookup_insert_ne.
Qed.

Lemma aio_read_complete_keeps_finished tid now data read_res j :
  (exists r, read_res !! j = Some r /\ s_finish r = true) ->
  exists r,
    fst (aio_read_complete tid now data read_res) !! j = Some r
    /\ s_finish r = true.
Proof.
  intros H0. unfold aio_read_complete.
  destruct (update_slot (set_end now) _ _) as [r1|] eqn:E1; [|done].
  apply (update_slot_keeps_finished _ _ _ _ j) in E1; [|done|done].
  destruct data as [bytes|]; [|done].
  destruct (update_slot (set_len _) _ _) as [r2|] eqn:E2; [|done].
  apply (update_slot_keeps_finished _ _ _ _ j) in E2; [|done|done].
  destruct (update_slot (set_finish _) _ _) as [r3|] eqn:E3; [|done].
  by apply (update_slot_keeps_finished _ _ _ _ j) in E3.
Qed.

(** A callback that receives data marks its slot. *)
Lemma aio_read_complete_finishes tid now bytes read_res :
  tid < length read_res ->
  exists r,
    fst (aio_read_complete tid now (Some bytes) read_res) !! tid = Some r
    /\ s_finish r = true.
Proof.
  intros Hlt. destruct (lookup_lt_is_Some_2 _ _ Hlt) as [r Hr].
  unfold aio_read_complete, update_slot. rewrite Hr.
  rewrite list_lookup_insert_eq by done.
  rewrite list_insert_insert_eq.
  rewrite list_lookup_insert_eq by done.
  rewrite list_insert_insert_eq. cbn [fst].
  rewrite list_lookup_insert_eq by done. by eexists.
Qed.

(** No event takes [finish] back. *)
Lemma bench_step_keeps_finished s e s' tid :
  bench_step threads_num reads_num objs s e = Some (Ok s') ->
  slot_finished s tid -> slot_finished s' tid.
Proof.
  unfold slot_finished.
  destruct e as [| |k now|k now data]; cbn [bench_step].
  - destruct (Nat.ltb _ _); [|done].
    destruct (getitem objs _); cbn; [|discriminate]. by intros [= <-].
  - destruct (b_queue s); [done|]. destruct (_ <? _)%Z; [|done].
    by intros [= <-].
  - destruct (b_running s !! k) as [[tid0 obj]|]; [|done].
    unfold obj_aio_read.
    destruct (update_slot _ _ _) as [rr|] eqn:E; cbn; [|discriminate].
    intros [= <-] H. cbn.
    eapply update_slot_keeps_finished; [|exact E|exact H]. done.
  - destruct (b_inflight s !! k) as [a|]; [|done].
    pose proof (aio_read_complete_keeps_finished (a_tid a) now data
                  (b_read_res s) tid) as Hkeep.
    destruct (aio_read_complete _ _ _ _) as [rr out]. cbn in Hkeep.
    intros [= <-]. cbn. done.
Qed.

Lemma elem_of_map_delete {A B} (f : A -> B) (l : list A) k y x :
  l !! k = Some y -> x ∈ map f l -> x ∈ map f (delete k l) \/ x = f y.
Proof.
  revert k. induction l as [|a l IH]; intros [|k] Hk Hx; cbn in *;
    try done.
  - injection Hk as ->. apply elem_of_cons in Hx as [->|Hx]; auto.
  - apply elem_of_cons in Hx as [->|Hx].
    + left. apply list_elem_of_here.
    + destruct (IH k Hk Hx) as [H|H]; [|by right].
      left. by apply list_elem_of_further.
Qed.

(** Every submitted request is pending or has its slot marked, as long
    as every callback receives data. *)
Lemma bench_step_settles s e s' :
  bench_invariant threads_num reads_num objs s ->
  (forall tid, tid < b_next s -> slot_finished s tid \/ pending s tid) ->
  succeeds e ->
  bench_step threads_num reads_num objs s e = Some (Ok s') ->
  forall tid, tid < b_next s' -> slot_finished s' tid \/ pending s' tid.
Proof.
  intros [Hs Hn Hq Hr Hi Hc Hw] Hsettled Hsucc Hstep tid Htid.
  pose proof (fun t => bench_step_keeps_finished s e s' t Hstep) as Hkeep.
  unfold pending in *.
  destruct e as [| |k now|k now data]; cbn [bench_step] in Hstep.
  - destruct (Nat.ltb _ _); [|done].
    destruct (getitem objs _); cbn in Hstep; [|discriminate].
    injection Hstep as <-. cbn in *.
    destruct (decide (tid = b_next s)) as [->|Hne].
    + right. left. rewrite map_app. apply elem_of_app. right.
      apply list_elem_of_here.
    + destruct (Hsettled tid ltac:(lia)) as [H|[H|H]]; [left; auto| |by auto].
      right. left. rewrite map_app. apply elem_of_app. by left.
  - destruct (b_queue s) as [|task queue] eqn:Eq; [done|].
    destruct (_ <? _)%Z; [|done]. injection Hstep as <-. cbn in *.
    destruct (Hsettled tid Htid) as [H|[H|[H|H]]]; [left; auto| | |by auto].
    + apply elem_of_cons in H as [->|H]; [|by auto].
      right. right. left. rewrite map_app. apply elem_of_app. right.
      apply list_elem_of_here.
    + right. right. left. rewrite map_app. apply elem_of_app. by left.
  - destruct (b_running s !! k) as [[tid0 obj]|] eqn:Ek; [|done].
    destruct (obj_aio_read _ _ _ _) as [[rr completion]|] eqn:E;
      cbn in Hstep; [|discriminate].
    apply obj_aio_read_ok in E as (_ & _ & ->).
    injection Hstep as <-. cbn in *.
    destruct (Hsettled tid Htid) as [H|[H|[H|H]]]; [left; auto|by auto| |].
    + destruct (elem_of_map_delete fst _ _ _ _ Ek H) as [H'| ->];
        [by auto|].
      right. right. right. rewrite map_app. apply elem_of_app. right.
      apply list_elem_of_here.
    + right. right. right. rewrite map_app. apply elem_of_app. by left.
  - destruct (b_inflight s !! k) as [a|] eqn:Ek; [|done].
    destruct data as [bytes|]; [|done].
    pose proof (Forall_lookup_1 _ _ _ _ Hi Ek) as [Ha _].
    pose proof (aio_read_complete_finishes (a_tid a) now bytes
                  (b_read_res s) ltac:(lia)) as Hfin.
    destruct (aio_read_complete _ _ _ _) as [rr out]. cbn in Hfin.
    injection Hstep as <-. cbn in *.
    destruct (Hsettled tid Htid) as [H|[H|[H|H]]];
      [left; auto|by auto|by auto|].
    destruct (elem_of_map_delete a_tid _ _ _ _ Ek H) as [H'| ->];
      [by auto|].
    by left.
Qed.

Lemma bench_run_settles schedule : forall s s',
  bench_invariant threads_num reads_num objs s ->
  (forall tid, tid < b_next s -> slot_finished s tid \/ pending s tid) ->
  Forall succeeds schedule ->
  bench_run threads_num reads_num objs schedule s = Some (Ok s') ->
  forall tid, tid < b_next s' -> slot_finished s' tid \/ pending s' tid.
Proof.
  induction schedule as [|e schedule IH]; intros s s' Hinv Hset Hsucc;
    cbn [bench_run].
  - by intros [= <-].
  - inversion Hsucc as [|? ? He Hrest]; subst.
    destruct (bench_step _ _ _ s e) as [[s1|]|] eqn:E; [|done|done].
    apply IH; [by eapply bench_step_invariant| |done].
    by eapply bench_step_settles.
Qed.
End Barrier.

(** The barrier of [wait_finish]: when a run has ended (everything is
    submitted and nothing is queued, running or in flight) and every
    callback of the run received data, each of the N slots has
    [finish = True], so the aggregator leaves no slot out. *)
Theorem finished_run_marks_every_slot
    threads_num reads_num objs schedule s :
  (1 <= threads_num)%Z ->
  bench_run threads_num reads_num objs schedule (bench_init reads_num)
  = Some (Ok s) ->
  Forall succeeds schedule ->
  bench_finished reads_num s = true ->
  length (b_read_res s) = Z.to_nat reads_num
  /\ Forall (fun r => s_finish r = true) (b_read_res s)
  /\ completed (b_read_res s) = b_read_res s.
Proof.
  intros HW Hrun Hsucc Hfin.
  pose proof (bench_init_invariant threads_num reads_num objs ltac:(lia))
    as Hinit.
  pose proof (bench_run_invariant _ _ _ _ _ _ Hinit Hrun) as Hinv.
  pose proof (bench_run_settles _ _ _ schedule _ _ Hinit
                ltac:(cbn; lia) Hsucc Hrun) as Hset.
  unfold bench_finished in Hfin.
  apply andb_prop in Hfin as [Hfin Hi]. apply andb_prop in Hfin as [Hfin Hr].
  apply andb_prop in Hfin as [Hn Hq].
  apply Nat.eqb_eq in Hn, Hq, Hr, Hi.
  apply nil_length_inv in Hq, Hr, Hi.
  destruct Hinv as [Hs _ _ _ _ _ _].
  assert (Hall : Forall (fun r => s_finish r = true) (b_read_res s)).
  { apply Forall_lookup. intros tid r Hr0.
    pose proof (lookup_lt_Some _ _ _ Hr0) as Hlt.
    destruct (Hset tid ltac:(lia)) as [(r' & Hr' & Hf)|Hp].
    - congruence.
    - unfold pending in Hp. rewrite Hq, Hr, Hi in Hp. cbn in Hp.
      destruct Hp as [Hp|[Hp|Hp]]; by apply elem_of_nil in Hp. }
  split; [done|]. split; [done|].
  unfold completed. clear -Hall.
  induction Hall as [|r l Hr _ IH]; [done|].
  rewrite filter_cons, decide_True by done. by rewrite IH.
Qed.

Lemma finished_run_marks_every_slot_witness :
  (1 <= 2)%Z
  /\ exists s,
       bench_run 2 3 three_requests (sequential_schedule three_reads)
         (bench_init 3) = Some (Ok s)
       /\ Forall succeeds (sequential_schedule three_reads)
       /\ bench_finished 3 s = true
       /\ length (b_read_res s) = Z.to_nat 3
       /\ Forall (fun r => s_finish r = true) (b_read_res s)
       /\ completed (b_read_res s) = b_read_res s.
Proof.
  split; [lia|].
  set (s := {| b_next := 3; b_queue := []; b_running := [];
               b_inflight := [];
               b_read_res := map slot_of_read three_reads |}).
  assert (Hrun : bench_run 2 3 three_requests
                   (sequential_schedule three_reads) (bench_init 3)
                 = Some (Ok s)) by reflexivity.
  assert (Hsucc : Forall succeeds (sequential_schedule three_reads))
    by (repeat constructor).
  exists s. split; [exact Hrun|]. split; [exact Hsucc|].
  split; [reflexivity|].
  exact (finished_run_marks_every_slot 2 3 three_requests
           (sequential_schedule three_reads) s ltac:(lia) Hrun Hsucc
           eq_refl).
Defined.

Section CommandLine.
Variable zipf_pmf : Z -> Q -> option Q.

Lemma with_choices_Some lo hi default_value given x :
  with_choices lo hi default_value given = Some x ->
  x = default default_value given
  /\ (given = None \/ (lo <= x < hi)%Z).
Proof.
  unfold with_choices, in_range. destruct given as [y|]; cbn.
  - destruct (_ && _) eqn:E; [|done]. intros [= <-].
    apply andb_prop in E as [?%Z.leb_le ?%Z.ltb_lt]. auto.
  - intros [= <-]. auto.
Qed.

Lemma parse_args_Some v a :
  parse_args v = Some a ->
  arg_threads a = default 10%Z (given_threads v)
  /\ arg_total_reads a = default 1000%Z (given_total_reads v)
  /\ arg_pool a = default "ec-fast-pool"%string (given_pool v)
  /\ arg_enable_zipf_distribution a = given_enable_zipf_distribution v
  /\ (0 <= arg_threads a <= 30)%Z
  /\ (1 <= arg_total_reads a <= 10000)%Z.
Proof.
  unfold parse_args.
  destruct (with_choices 0 31 _ _) as [threads|] eqn:Et; [|done].
  destruct (with_choices 1 10001 _ _) as [total_reads|] eqn:En; [|done].
  cbn. intros [= <-]. cbn.
  apply with_choices_Some in Et as [Et Ht], En as [En Hn].
  split_and!; try done.
  - destruct Ht as [Ht|Ht]; [|lia]. rewrite Ht in Et. cbn in Et. lia.
  - destruct Ht as [Ht|Ht]; [|lia]. rewrite Ht in Et. cbn in Et. lia.
  - destruct Hn as [Hn|Hn]; [|lia]. rewrite Hn in En. cbn in En. lia.
  - destruct Hn as [Hn|Hn]; [|lia]. rewrite Hn in En. cbn in En. lia.
Qed.

Lemma prepare_objs_uniform_returns cluster_objects reads_num zipf_parm g :
  cluster_objects ≠ [] -> (1 <= reads_num)%Z ->
  exists objs g',
    prepare_objs zipf_pmf cluster_objects reads_num false zipf_parm g
    = Ok (objs, g')
    /\ length objs = Z.to_nat reads_num.
Proof.
  intros Hne HN.
  assert (1 <= length cluster_objects).
  { destruct cluster_objects; [done|cbn; lia]. }
  destruct (Z_le_gt_dec reads_num (Z.of_nat (length cluster_objects))).
  - eexists _, _. split; [apply prepare_objs_uniform_small; lia|].
    rewrite length_map, length_take. lia.
  - destruct (prepare_objs_uniform_large zipf_pmf cluster_objects
                reads_num zipf_parm g ltac:(lia))
      as (objs & g' & pre & E & Hp & _ & Hlen).
    exists objs, g'. split; [done|]. by rewrite Hp.
Qed.

Lemma prepare_objs_no_objects reads_num use_zipf zipf_parm g :
  (1 <= reads_num)%Z ->
  prepare_objs zipf_pmf [] reads_num use_zipf zipf_parm g
  = Raise (if use_zipf then TypeError else ZeroDivisionError).
Proof.
  intros H. destruct use_zipf; [reflexivity|].
  unfold prepare_objs. cbn [uniform_take].
  by rewrite uniform_cycle_no_objects by lia.
Qed.

(** The width [main] hands to the thread pool, for every command line
    [parse_args] accepts: it is the smaller of [--threads] and
    [--total-reads], it lies between 0 and 30 and never above the number
    of reads, which lies between 1 and 10000; and it is 0 exactly when
    the command line says [--threads 0], which [range(0, 31)] admits. *)
Theorem parsed_pool_width_is_clamped v a :
  parse_args v = Some a ->
  (1 <= arg_total_reads a <= 10000)%Z
  /\ main_threads a = Z.min (arg_threads a) (arg_total_reads a)
  /\ (0 <= main_threads a <= 30)%Z
  /\ (main_threads a <= arg_total_reads a)%Z
  /\ (main_threads a = 0%Z <-> given_threads v = Some 0%Z).
Proof.
  intros (Et & En & _ & _ & Ht & Hn)%parse_args_Some.
  assert (Hmin : main_threads a = Z.min (arg_threads a) (arg_total_reads a)).
  { unfold main_threads.
    destruct (Z.ltb_spec (arg_threads a) (arg_total_reads a)); lia. }
  split_and!; [lia|lia|done|lia|lia|lia|].
  rewrite Hmin, Et. destruct (given_threads v) as [x|]; cbn in *.
  - split; [intros ?; f_equal; lia|intros [= ->]; lia].
  - split; [lia|done].
Qed.

(** A run against a pool that does not exist, for every command line
    [parse_args] accepts: [main] creates the pool, the sampler then finds
    no object in it and raises ([ZeroDivisionError] at line 50, or
    [TypeError] at line 23 with [-z]) whatever the run would have been,
    and since line 150 is not reached the empty pool stays in the
    cluster. *)
Theorem missing_pool_is_created_and_left_behind v a cluster g schedule :
  parse_args v = Some a ->
  cluster !! arg_pool a = None ->
  main zipf_pmf a cluster g schedule
  = (<[arg_pool a := []]> cluster,
     Some (Raise (if arg_enable_zipf_distribution a then TypeError
                  else ZeroDivisionError))).
Proof.
  intros (_ & _ & _ & _ & _ & Hn)%parse_args_Some E.
  unfold main. rewrite E. rewrite lookup_insert_eq. cbn [default].
  unfold bench_test. by rewrite prepare_objs_no_objects by lia.
Qed.

(** [--threads 0] is a command line [parse_args] accepts, and it cannot
    run: on a pool that exists and lists an object, in uniform mode, the
    sampler returns and [ThreadPoolExecutor(max_workers=0)] raises
    [ValueError] before any request is submitted; the cluster is left as
    it was. *)
Theorem zero_threads_raises_value_error v a cluster listing g schedule :
  parse_args v = Some a ->
  given_threads v = Some 0%Z ->
  arg_enable_zipf_distribution a = false ->
  cluster !! arg_pool a = Some listing ->
  listing ≠ [] ->
  main zipf_pmf a cluster g schedule = (cluster, Some (Raise ValueError)).
Proof.
  intros Hv H0 Hz E Hne.
  pose proof Hv as (Et & _ & _ & _ & _ & Hn)%parse_args_Some.
  rewrite H0 in Et. cbn in Et.
  unfold main. rewrite E, Hz. cbv zeta. rewrite ?E.
  change (default [] (Some listing)) with listing.
  destruct (prepare_objs_uniform_returns listing (arg_total_reads a)
              (arg_zipf_parm a) g Hne ltac:(lia)) as (objs & g' & Ep & _).
  unfold bench_test. rewrite Ep.
  assert (Hw : main_threads a = 0%Z).
  { unfold main_threads. rewrite Et.
    destruct (Z.ltb_spec 0 (arg_total_reads a)); lia. }
  by rewrite Hw.
Qed.

(** The whole program on one run: for an accepted command line other
    than [--threads 0], in uniform mode, on a pool that exists and lists
    an object, the schedule that serves the N reads one after the other
    is a complete run for every pool width; [main] reports what the
    aggregator computes from the N slots [start = issue time, end =
    callback time, len = bytes received], and leaves the cluster as it
    was. *)
Theorem main_serves_reads_in_turn v a cluster listing g reads :
  parse_args v = Some a ->
  given_threads v <> Some 0%Z ->
  arg_enable_zipf_distribution a = false ->
  cluster !! arg_pool a = Some listing ->
  listing ≠ [] ->
  Z.of_nat (length reads) = arg_total_reads a ->
  main zipf_pmf a cluster g (sequential_schedule reads)
  = (cluster,
     Some (collect_and_print_statistics (map slot_of_read reads))).
Proof.
  intros Hv H0 Hz E Hne Hlen.
  pose proof Hv as (Et & _ & _ & _ & Ht & Hn)%parse_args_Some.
  assert (Hw : (1 <= main_threads a)%Z).
  { unfold main_threads.
    destruct (Z.ltb_spec (arg_threads a) (arg_total_reads a)); [|lia].
    destruct (given_threads v) as [x|]; cbn in Et; [|lia].
    destruct (decide (x = 0%Z)) as [->|]; [done|lia]. }
  unfold main. rewrite E, Hz. cbv zeta. rewrite ?E.
  change (default [] (Some listing)) with listing.
  destruct (prepare_objs_uniform_returns listing (arg_total_reads a)
              (arg_zipf_parm a) g Hne ltac:(lia))
    as (objs & g' & Ep & Hobjs).
  unfold bench_test. rewrite Ep.
  destruct (Z.leb_spec (main_threads a) 0) as [|_]; [lia|].
  pose proof (sequential_run (main_threads a) (arg_total_reads a) objs Hw
                reads []) as Hrun.
  cbn [length app] in Hrun.
  assert (HNat : Z.to_nat (arg_total_reads a) = length reads) by lia.
  assert (Hinit : bench_init (arg_total_reads a)
                  = {| b_next := 0; b_queue := []; b_running := [];
                       b_inflight := [];
                       b_read_res :=
                         replicate (length reads) default_slot |}).
  { unfold bench_init. by rewrite HNat. }
  rewrite Hinit, Hrun by lia.
  unfold bench_finished. cbn [b_next b_queue b_running b_inflight length].
  rewrite Nat.eqb_refl. cbn [andb Nat.eqb b_read_res].
  by destruct (collect_and_print_statistics _).
Qed.
End CommandLine.

Lemma parsed_pool_width_is_clamped_witness :
  parse_args zero_threads
  = Some {| arg_conf := "/etc/ceph/ceph.conf";
            arg_keyring := "/etc/ceph/ceph.client.admin.keyring";
            arg_pool := "ec-fast-pool"; arg_threads := 0;
            arg_total_reads := 5;
            arg_enable_zipf_distribution := false;
            arg_zipf_parm := 11 # 10 |}
  /\ main_threads
       {| arg_conf := "/etc/ceph/ceph.conf";
          arg_keyring := "/etc/ceph/ceph.client.admin.keyring";
          arg_pool := "ec-fast-pool"; arg_threads := 0;
          arg_total_reads := 5;
          arg_enable_zipf_distribution := false;
          arg_zipf_parm := 11 # 10 |} = 0%Z.
Proof.
  split; [reflexivity|].
  apply (parsed_pool_width_is_clamped zero_threads _ eq_refl).
  reflexivity.
Defined.

Lemma missing_pool_is_created_and_left_behind_witness :
  exists a,
    parse_args fresh_pool = Some a
    /\ ex_cluster !! arg_pool a = None
    /\ main ex_pmf a ex_cluster ex_rng eager_schedule
       = (<["scratch"%string := []]> ex_cluster,
          Some (Raise ZeroDivisionError)).
Proof.
  eexists. split; [reflexivity|]. split; [reflexivity|].
  apply (missing_pool_is_created_and_left_behind ex_pmf fresh_pool _
           ex_cluster ex_rng eager_schedule eq_refl).
  reflexivity.
Defined.

Lemma zero_threads_raises_value_error_witness :
  exists a,
    parse_args zero_threads = Some a
    /\ given_threads zero_threads = Some 0%Z
    /\ arg_enable_zipf_distribution a = false
    /\ ex_cluster !! arg_pool a = Some ex_listing
    /\ ex_listing ≠ []
    /\ main ex_pmf a ex_cluster ex_rng eager_schedule
       = (ex_cluster, Some (Raise ValueError)).
Proof.
  eexists. split; [reflexivity|]. split; [reflexivity|].
  split; [reflexivity|]. split; [reflexivity|]. split; [done|].
  by apply (zero_threads_raises_value_error ex_pmf zero_threads _
              ex_cluster ex_listing ex_rng eager_schedule eq_refl).
Defined.

Lemma main_serves_reads_in_turn_witness :
  exists a,
    parse_args three_in_turn = Some a
    /\ given_threads three_in_turn <> Some 0%Z
    /\ arg_enable_zipf_distribution a = false
    /\ ex_cluster !! arg_pool a = Some ex_listing
    /\ ex_listing ≠ []
    /\ Z.of_nat (length three_reads) = arg_total_reads a
    /\ main ex_pmf a ex_cluster ex_rng (sequential_schedule three_reads)
       = (ex_cluster,
          Some (collect_and_print_statistics
                  (map slot_of_read three_reads))).
Proof.
  eexists. split; [reflexivity|]. split; [done|].
  split; [reflexivity|]. split; [reflexivity|]. split; [done|].
  split; [reflexivity|].
  by apply (main_serves_reads_in_turn ex_pmf three_in_turn _ ex_cluster
              ex_listing ex_rng three_reads eq_refl).
Defined.

Section ZipfCounts.

Lemma count_occ_replicate n (x y : read_req) :
  count_occ read_req_eq_dec (replicate n y) x
  = if read_req_eq_dec y x then n else 0.
Proof.
  induction n as [|n IH]; cbn [replicate count_occ].
  - by destruct (read_req_eq_dec y x).
  - rewrite IH. by destruct (read_req_eq_dec y x).
Qed.

Lemma zipf_expansion_cons c objs_c obj cluster_objects :
  zipf_expansion (c :: objs_c) (obj :: cluster_objects)
  = replicate (Z.to_nat c) (req_of obj)
    ++ zipf_expansion objs_c cluster_objects.
Proof. reflexivity. Qed.

Lemma zipf_expansion_elems objs_c : forall cluster_objects r,
  r ∈ zipf_expansion objs_c cluster_objects ->
  r ∈ map req_of cluster_objects.
Proof.
  induction objs_c as [|c objs_c IH]; intros [|obj cluster_objects] r;
    try (by intros ?%elem_of_nil).
  rewrite zipf_expansion_cons. intros [Hr|Hr]%elem_of_app.
  - apply elem_of_replicate_inv in Hr as ->. apply list_elem_of_here.
  - apply list_elem_of_further. by apply IH.
Qed.

(** With distinct entries in the listing, the expansion holds the object
    at position [i] as often as [objs_c[i]] says. *)
Lemma zipf_expansion_count objs_c : forall cluster_objects i obj c,
  NoDup (map req_of cluster_objects) ->
  cluster_objects !! i = Some obj ->
  objs_c !! i = Some c ->
  count_occ read_req_eq_dec (zipf_expansion objs_c cluster_objects)
    (req_of obj) = Z.to_nat c.
Proof.
  induction objs_c as [|c0 objs_c IH];
    intros [|obj0 cluster_objects] i obj c Hnd Hobj Hc; try done.
  rewrite zipf_expansion_cons, count_occ_app, count_occ_replicate.
  cbn [map] in Hnd. apply NoDup_cons in Hnd as [Hnotin Hnd].
  destruct i as [|i]; cbn in Hobj, Hc.
  - injection Hobj as ->. injection Hc as ->.
    destruct (read_req_eq_dec _ _); [|done].
    rewrite (proj1 (count_occ_not_In read_req_eq_dec _ _)); [lia|].
    intros Hin%list_elem_of_In%zipf_expansion_elems. done.
  - destruct (read_req_eq_dec _ _) as [Heq|_].
    + exfalso. apply Hnotin. rewrite Heq.
      apply list_elem_of_fmap_2. by eapply list_elem_of_lookup_2.
    + by apply (IH cluster_objects i).
Qed.
End ZipfCounts.

(** How often each object is requested in Zipf mode, for a listing of
    M >= 1 objects with distinct key and size, a target N >= 1 and
    positive pmf values: the object at position i of the listing is
    requested exactly [objs_c'[i]] times, where [objs_c'] is what line 31
    makes of the allocation [objs_c] by shuffling it.  The counts are those
    of the Zipf allocation, but which object gets which count is left to
    the shuffle and not to the rank of the object. *)
Theorem zipf_counts_are_shuffled_allocation
    zipf_pmf cluster_objects reads_num zipf_parm g :
  cluster_objects ≠ [] ->
  (1 <= reads_num)%Z ->
  (forall i, (1 <= i <= Z.of_nat (length cluster_objects))%Z ->
     exists q, zipf_pmf i zipf_parm = Some q /\ (0 < q)%Q) ->
  NoDup (map req_of cluster_objects) ->
  exists objs g' objs_p objs_c count shuffled_c,
    prepare_objs zipf_pmf cluster_objects reads_num true zipf_parm g
    = Ok (objs, g')
    /\ zipf_probabilities zipf_pmf cluster_objects zipf_parm = Ok objs_p
    /\ zipf_alloc reads_num objs_p [] 0%Z = Ok (objs_c, count)
    /\ shuffled_c ≡ₚ objs_c
    /\ length shuffled_c = length cluster_objects
    /\ forall i obj c,
         cluster_objects !! i = Some obj ->
         shuffled_c !! i = Some c ->
         count_occ read_req_eq_dec objs (req_of obj) = Z.to_nat c.
Proof.
  intros Hne HN Hpmf Hnd.
  assert (Hnn : forall i, (1 <= i <= Z.of_nat (length cluster_objects))%Z ->
                  exists q, zipf_pmf i zipf_parm = Some q /\ (0 <= q)%Q).
  { intros i Hi. destruct (Hpmf i Hi) as (q & Hq & Hpos).
    exists q. split; [done|]. by apply Qlt_le_weak. }
  assert (Hsome : exists i q,
            (1 <= i <= Z.of_nat (length cluster_objects))%Z
            /\ zipf_pmf i zipf_parm = Some q /\ (0 < q)%Q).
  { assert (1 <= length cluster_objects)
      by (destruct cluster_objects; [done|cbn; lia]).
    destruct (Hpmf 1%Z ltac:(lia)) as (q & Hq & Hpos).
    exists 1%Z, q. split; [lia|done]. }
  destruct (prepare_objs_zipf zipf_pmf cluster_objects reads_num zipf_parm g
              HN Hnn Hsome)
    as (objs & g' & ps & objs_c & count & shuffled_c
        & E & Ep & Ea & Hperm & Hobjs & _ & _).
  destruct (zipf_probabilities_normalised zipf_pmf cluster_objects
              zipf_parm Hnn Hsome) as (ps' & Ep' & Hlen & Hps & _).
  rewrite Ep in Ep'. injection Ep' as Hpp.
  rewrite Hpp in Ep, Ea. clear Hpp ps. rename ps' into ps.
  destruct (zipf_alloc_bounds reads_num ltac:(lia) ps [] 0%Z Hps)
    as (objs_c' & count' & Ea' & Hlc & _).
  cbn [app] in Ea'. rewrite Ea in Ea'. injection Ea' as <- <-.
  exists objs, g', (map Fin ps), objs_c, count, shuffled_c.
  split_and!; try done.
  - rewrite (Permutation_length Hperm), Hlc. cbn. lia.
  - intros i obj c Hobj Hc.
    rewrite (proj1 (Permutation_count_occ read_req_eq_dec _ _) Hobjs).
    by eapply zipf_expansion_count.
Qed.

Lemma zipf_counts_are_shuffled_allocation_witness :
  ex_listing ≠ []
  /\ (1 <= 6)%Z
  /\ (forall i, (1 <= i <= Z.of_nat (length ex_listing))%Z ->
        exists q, ex_pmf i 2 = Some q /\ (0 < q)%Q)
  /\ NoDup (map req_of ex_listing)
  /\ exists objs g' objs_p objs_c count shuffled_c,
       prepare_objs ex_pmf ex_listing 6 true 2 ex_rng = Ok (objs, g')
       /\ zipf_probabilities ex_pmf ex_listing 2 = Ok objs_p
       /\ zipf_alloc 6 objs_p [] 0%Z = Ok (objs_c, count)
       /\ shuffled_c ≡ₚ objs_c
       /\ length shuffled_c = length ex_listing
       /\ forall i obj c,
            ex_listing !! i = Some obj ->
            shuffled_c !! i = Some c ->
            count_occ read_req_eq_dec objs (req_of obj) = Z.to_nat c.
Proof.
  assert (Hnd : NoDup (map req_of ex_listing)).
  { cbn. repeat (apply NoDup_cons; split;
                 [rewrite ?elem_of_cons, elem_of_nil; intros H;
                  repeat destruct H as [H|H]; done|]).
    apply NoDup_nil_2. }
  split; [done|]. split; [lia|]. split; [intros i _; apply ex_pmf_pos|].
  split; [exact Hnd|].
  apply (zipf_counts_are_shuffled_allocation ex_pmf ex_listing 6 2 ex_rng);
    [done|lia|intros i _; apply ex_pmf_pos|exact Hnd].
Defined.


